(** * OccupancyGridUtils: reshaping, cropping and merging occupancy grids

    A shallow embedding of [get_map_img] and [merge_maps] from
    [OccupancyGridUtils.py], with the properties of the specification
    stated over it.

    Numbers.  Cell values, thresholds, resolutions, origins and world
    coordinates are integers ([Z]): the arithmetic of the source is then
    exact, as Python performs it on [int] arguments and on integer-valued
    floats of moderate size.  The running bounds of [merge_maps] start at
    [inf] and [-inf]; they are [option Z], [None] standing for the infinite
    sentinel.  [round(a / b)] is the exact quotient rounded half to even,
    which is what Python returns while the float quotient is accurate
    enough to tell a tie from its neighbours.  The output array of
    [merge_maps] holds the floats -1.0, 0.0 and 100.0, written here as the
    integers -1, 0 and 100.  Heights and widths are counts ([nat]). *)

From Stdlib Require Import ZArith List Bool Arith Lia.
Import ListNotations.

(** ** Python exceptions as an error monad *)

Inductive error : Type :=
| IndexError
| ValueError
| ZeroDivisionError
| OverflowError
| UnboundLocalError.

Inductive result (A : Type) : Type :=
| Ok (a : A)
| Raise (e : error).

Arguments Ok {A} a.
Arguments Raise {A} e.

Definition bind {A B : Type} (c : result A) (k : A -> result B) : result B :=
  match c with
  | Ok a => k a
  | Raise e => Raise e
  end.

Notation "x <- c ;; k" := (bind c (fun x => k))
  (at level 61, c at next level, right associativity).
Notation "' pat <- c ;; k" := (bind c (fun x => match x with pat => k end))
  (at level 61, pat pattern, c at next level, right associativity).

Definition fails {A : Type} (c : result A) : Prop := exists e, c = Raise e.

(** [for x in xs: s = body(x, s)], stopping at the first exception. *)
Fixpoint for_each {X S : Type} (xs : list X) (body : X -> S -> result S) (s : S)
  : result S :=
  match xs with
  | [] => Ok s
  | x :: xs' => s' <- body x s ;; for_each xs' body s'
  end.

(** [range(n)] *)
Definition range (n : nat) : list nat := seq 0 n.

(** ** Sequences: subscripts and slices *)

(** [l[k]] for a list and a non-negative subscript. *)
Definition subscript {A : Type} (l : list A) (k : nat) : result A :=
  match nth_error l k with
  | Some a => Ok a
  | None => Raise IndexError
  end.

(** Normalisation of one bound of a slice over a sequence of length [n]:
    a negative bound counts from the end, and the outcome is clipped to
    [0..n]. *)
Definition slice_bound (n : nat) (k : Z) : nat :=
  if (k <? 0)%Z then Z.to_nat (Z.max 0 (k + Z.of_nat n))
  else Nat.min (Z.to_nat k) n.

(** [l[start:stop]]: the elements at positions [start <= k < stop]. *)
Definition slice {A : Type} (start stop : Z) (l : list A) : list A :=
  let a := slice_bound (length l) start in
  let b := slice_bound (length l) stop in
  firstn (b - a) (skipn a l).

(** [img[r0:r1, c0:c1]] on a matrix held as a list of rows. *)
Definition slice2 {A : Type} (r0 r1 c0 c1 : Z) (img : list (list A))
  : list (list A) :=
  map (slice c0 c1) (slice r0 r1 img).

(** ** get_map_img *)

Fixpoint chunks {A : Type} (rows width : nat) (l : list A) : list (list A) :=
  match rows with
  | O => []
  | S n => firstn width l :: chunks n width (skipn width l)
  end.

(** [np.reshape(map_data, [height, width])], row-major. *)
Definition reshape (map_data : list Z) (height width : nat)
  : result (list (list Z)) :=
  if length map_data =? height * width
  then Ok (chunks height width map_data)
  else Raise ValueError.

(** [img[i][j]] where the loops of [get_map_img] read it: [i < height] and
    [j < width] there, so the subscript is in range ([cell_reshape]). *)
Definition cell (img : list (list Z)) (i j : nat) : Z :=
  nth j (nth i img []) (-1)%Z.

Definition known (img : list (list Z)) (i j : nat) : bool :=
  negb (cell img i j =? -1)%Z.

(** Body of the first loop nest (lines 46-49): column bounds. *)
Definition cols_body (img : list (list Z)) (width i : nat)
  (st : nat * nat) (j : nat) : nat * nat :=
  let '(min_x, max_x) := st in
  let min_x := if known img i j && (j <? min_x) then j else min_x in
  let max_x :=
    if known img i (width - j - 1) && (max_x <? width - j - 1)
    then width - j - 1 else max_x in
  (min_x, max_x).

(** Body of the second loop nest (lines 52-55): row bounds. *)
Definition rows_body (img : list (list Z)) (height j : nat)
  (st : nat * nat) (i : nat) : nat * nat :=
  let '(min_y, max_y) := st in
  let min_y := if known img i j && (i <? min_y) then i else min_y in
  let max_y :=
    if known img (height - i - 1) j && (max_y <? height - i - 1)
    then height - i - 1 else max_y in
  (min_y, max_y).

Definition col_bounds (img : list (list Z)) (height width : nat) : nat * nat :=
  fold_left
    (fun st i => fold_left (cols_body img width i) (range width) st)
    (range height) (width, 0).

Definition row_bounds (img : list (list Z)) (height width : nat) : nat * nat :=
  fold_left
    (fun st j => fold_left (rows_body img height j) (range height) st)
    (range width) (height, 0).

(** [if m < padding: m = padding] *)
Definition clamp_low (m : nat) (padding : Z) : Z :=
  if (Z.of_nat m <? padding)%Z then padding else Z.of_nat m.

Definition get_map_img (map_data : list Z) (size : nat * nat) (crop : bool)
  (padding : Z) : result (list (list Z)) :=
  let '(height, width) := size in
  img <- reshape map_data height width ;;
  if crop then
    let '(min_x, max_x) := col_bounds img height width in
    let '(min_y, max_y) := row_bounds img height width in
    let min_y := clamp_low min_y padding in
    let min_x := clamp_low min_x padding in
    Ok (slice2 (min_y - padding) (Z.of_nat max_y + padding)
               (min_x - padding) (Z.of_nat max_x + padding) img)
  else Ok img.

(** The tightest box around the cells different from -1: each side touches
    such a cell, and every such cell is inside. *)
Definition tight_box (img : list (list Z)) (height width : nat)
  (min_row max_row min_col max_col : nat) : Prop :=
  (exists j, j < width /\ known img min_row j = true) /\
  (exists j, j < width /\ known img max_row j = true) /\
  (exists i, i < height /\ known img i min_col = true) /\
  (exists i, i < height /\ known img i max_col = true) /\
  max_row < height /\ max_col < width /\
  forall i j, i < height -> j < width -> known img i j = true ->
    min_row <= i <= max_row /\ min_col <= j <= max_col.

(** ** merge_maps *)

Local Open Scope Z_scope.

(** A world coordinate [(x, y)], the key of the dictionary [grid]. *)
Definition point : Type := Z * Z.

Definition point_eqb (p q : point) : bool :=
  (fst p =? fst q) && (snd p =? snd q).

(** The dictionary [grid], in insertion order: iterating a Python dict
    yields the keys in the order of their first insertion, and assigning to
    a key already present changes its value where it stands. *)
Definition dict : Type := list (point * bool).

Fixpoint dict_get (p : point) (d : dict) : option bool :=
  match d with
  | [] => None
  | (q, b) :: d' => if point_eqb p q then Some b else dict_get p d'
  end.

(** [p in grid] *)
Definition dict_mem (p : point) (d : dict) : bool :=
  match dict_get p d with
  | Some _ => true
  | None => false
  end.

(** [grid[p] = b] *)
Fixpoint dict_set (p : point) (b : bool) (d : dict) : dict :=
  match d with
  | [] => [(p, b)]
  | (q, c) :: d' =>
      if point_eqb p q then (q, b) :: d' else (q, c) :: dict_set p b d'
  end.

(** The variables of [merge_maps] that live across the scan.  [min_x] and
    [min_y] are [inf] while [None]; [max_x] and [max_y] are [-inf] while
    [None]; [resolution] is unbound while [None]. *)
Record state : Type := State {
  grid : dict;
  min_x : option Z;
  min_y : option Z;
  max_x : option Z;
  max_y : option Z;
  resolution : option Z
}.

Definition initial : state :=
  {| grid := []; min_x := None; min_y := None; max_x := None; max_y := None;
     resolution := None |}.

(** [x < min] where [min] may still be [inf]. *)
Definition below (x : Z) (mn : option Z) : bool :=
  match mn with
  | None => true
  | Some m => x <? m
  end.

(** [x > max] where [max] may still be [-inf]. *)
Definition above (x : Z) (mx : option Z) : bool :=
  match mx with
  | None => true
  | Some m => m <? x
  end.

(** Lines 138-141 (and 142-145 for [y]): [if x<min: min=x elif x>max: max=x]. *)
Definition track (x : Z) (mn mx : option Z) : option Z * option Z :=
  if below x mn then (Some x, mx)
  else if above x mx then (mn, Some x)
  else (mn, mx).

(** World coordinate of column [i], row [j] of a source. *)
Definition world (res origin_x origin_y : Z) (i j : nat) : point :=
  (Z.of_nat i * res + origin_x, Z.of_nat j * res + origin_y).

(** Lines 127-137: the update of [grid] for a cell of value [v <> -1].  On
    integers the [elif v <= threshold] is the negation of [if v > threshold]. *)
Definition record_cell (threshold v : Z) (p : point) (d : dict) : dict :=
  if threshold <? v then dict_set p true d
  else if dict_mem p d then d
  else dict_set p false d.

(** Lines 125-145: the body of the two inner loops for one cell. *)
Definition visit (threshold res origin_x origin_y : Z) (i j : nat) (v : Z)
  (st : state) : state :=
  if v =? -1 then st
  else
    let p := world res origin_x origin_y i j in
    let '(mnx, mxx) := track (fst p) (min_x st) (max_x st) in
    let '(mny, mxy) := track (snd p) (min_y st) (max_y st) in
    {| grid := record_cell threshold v p (grid st);
       min_x := mnx; min_y := mny; max_x := mxx; max_y := mxy;
       resolution := resolution st |}.

(** Lines 123-145: the scan of one source. *)
Definition scan_source (threshold : Z) (occupancy : list Z)
  (res origin_x origin_y : Z) (height width : nat) (st : state)
  : result state :=
  for_each (range width) (fun i st =>
    for_each (range height) (fun j st =>
      v <- subscript occupancy (i + j * width)%nat ;;
      Ok (visit threshold res origin_x origin_y i j v st)) st) st.

Definition bind_resolution (res : Z) (st : state) : state :=
  {| grid := grid st;
     min_x := min_x st; min_y := min_y st;
     max_x := max_x st; max_y := max_y st;
     resolution := Some res |}.

(** Lines 118-122: what the loop over the sources reads for one index. *)
Definition source_body (maps_data : list (list Z)) (maps_resolution : list Z)
  (maps_origin : list (Z * Z)) (maps_size : list (nat * nat)) (threshold : Z)
  (index : nat) (st : state) : result state :=
  occupancy <- subscript maps_data index ;;
  res <- subscript maps_resolution index ;;
  '(origin_x, origin_y) <- subscript maps_origin index ;;
  '(height, width) <- subscript maps_size index ;;
  scan_source threshold occupancy res origin_x origin_y height width
    (bind_resolution res st).

(** Lines 113-145. *)
Definition scan_maps (maps_data : list (list Z)) (maps_resolution : list Z)
  (maps_origin : list (Z * Z)) (maps_size : list (nat * nat)) (threshold : Z)
  : result state :=
  for_each (range (length maps_data))
    (source_body maps_data maps_resolution maps_origin maps_size threshold)
    initial.

(** [abs(mx - mn)], which is [inf] ([None]) as soon as a bound is infinite. *)
Definition extent (mx mn : option Z) : option Z :=
  match mx, mn with
  | Some a, Some b => Some (Z.abs (a - b))
  | _, _ => None
  end.

(** [x - o] where [o] may be [inf]. *)
Definition offset (x : Z) (o : option Z) : option Z :=
  match o with
  | Some m => Some (x - m)
  | None => None
  end.

(** [round(a / b)] for [b <> 0]: the quotient rounded to the nearest
    integer, a tie going to the even one. *)
Definition round_div (a b : Z) : Z :=
  let q := a / b in
  let r := a mod b in
  match 2 * Z.abs r ?= Z.abs b with
  | Lt => q
  | Gt => q + 1
  | Eq => if Z.even q then q else q + 1
  end.

(** [round(a / resolution)]: the name [resolution] is read first, then the
    division is made, then the quotient is rounded. *)
Definition round_quot (a : option Z) (res : option Z) : result Z :=
  match res with
  | None => Raise UnboundLocalError
  | Some r =>
      if r =? 0 then Raise ZeroDivisionError
      else match a with
           | None => Raise OverflowError
           | Some n => Ok (round_div n r)
           end
  end.

(** [np.zeros((rows, cols)) + v] *)
Definition full (rows cols : Z) (v : Z) : result (list (list Z)) :=
  if (rows <? 0) || (cols <? 0) then Raise ValueError
  else Ok (repeat (repeat v (Z.to_nat cols)) (Z.to_nat rows)).

(** A NumPy subscript along an axis of length [n]: a negative subscript
    counts from the end. *)
Definition np_index (n : nat) (k : Z) : result nat :=
  if (0 <=? k) && (k <? Z.of_nat n) then Ok (Z.to_nat k)
  else if (k <? 0) && (- Z.of_nat n <=? k) then Ok (Z.to_nat (k + Z.of_nat n))
  else Raise IndexError.

Fixpoint list_set {A : Type} (k : nat) (a : A) (l : list A) : list A :=
  match l, k with
  | [], _ => []
  | _ :: t, O => a :: t
  | h :: t, S k' => h :: list_set k' a t
  end.

Definition img_set (r c : nat) (v : Z) (img : list (list Z)) : list (list Z) :=
  match nth_error img r with
  | Some row => list_set r (list_set c v row) img
  | None => img
  end.

(** [img[y, x] = v] on an array of shape [(rows, cols)]. *)
Definition store (rows cols : nat) (y x : Z) (v : Z) (img : list (list Z))
  : result (list (list Z)) :=
  r <- np_index rows y ;;
  c <- np_index cols x ;;
  Ok (img_set r c v img).

Definition cell_value (b : bool) : Z := if b then 100 else 0.

(** Lines 150-152: the body of the loop over [grid]. *)
Definition paint (res o_x o_y : option Z) (rows cols : nat)
  (entry : point * bool) (img : list (list Z)) : result (list (list Z)) :=
  let '((x, y), b) := entry in
  x' <- round_quot (offset x o_x) res ;;
  y' <- round_quot (offset y o_y) res ;;
  store rows cols y' x' (cell_value b) img.

(** Lines 146-153. *)
Definition rasterize (st : state) : result (list (list Z)) :=
  h <- round_quot (extent (max_y st) (min_y st)) (resolution st) ;;
  w <- round_quot (extent (max_x st) (min_x st)) (resolution st) ;;
  img <- full (h + 1) (w + 1) (-1) ;;
  for_each (grid st)
    (paint (resolution st) (min_x st) (min_y st)
       (Z.to_nat (h + 1)) (Z.to_nat (w + 1)))
    img.

Definition merge_maps (maps_data : list (list Z)) (maps_resolution : list Z)
  (maps_origin : list (Z * Z)) (maps_size : list (nat * nat)) (threshold : Z)
  : result (list (list Z)) :=
  st <- scan_maps maps_data maps_resolution maps_origin maps_size threshold ;;
  rasterize st.

(** ** Definitions used to state the properties *)

(** Both loop nests of [get_map_img] are one scan: [k a b] tells whether the
    cell at outer position [a], inner position [b] is known; there are [m]
    outer and [n] inner positions. *)
Definition scan_body (k : nat -> nat -> bool) (n a : nat) (st : nat * nat)
  (b : nat) : nat * nat :=
  let '(lo, hi) := st in
  let lo := if (k a b && (b <? lo))%nat then b else lo in
  let hi :=
    if (k a (n - b - 1) && (hi <? n - b - 1))%nat then (n - b - 1)%nat else hi in
  (lo, hi).

Definition scan_bounds (k : nat -> nat -> bool) (m n : nat) : nat * nat :=
  fold_left (fun st a => fold_left (scan_body k n a) (range n) st) (range m)
    (n, 0%nat).

(** Each bound is at its initial value or at a position that holds a known
    cell. *)
Definition sound (k : nat -> nat -> bool) (m n : nat) (st : nat * nat) : Prop :=
  (fst st = n \/ (fst st < n /\ exists a, a < m /\ k a (fst st) = true))%nat /\
  (snd st = 0 \/ (snd st < n /\ exists a, a < m /\ k a (snd st) = true))%nat.

(** The threshold rule on one cell. *)
Definition classify (threshold v : Z) : Z :=
  if v =? -1 then -1 else if threshold <? v then 100 else 0.

(** No coordinate recorded, the four bounds at their sentinels. *)
Definition untouched (st : state) : Prop :=
  grid st = [] /\ min_x st = None /\ max_x st = None /\
  min_y st = None /\ max_y st = None.

(** An array of [rows] rows of [cols] cells. *)
Definition shape (img : list (list Z)) (rows cols : nat) : Prop :=
  length img = rows /\ Forall (fun row => length row = cols) img.

(** The cell of the output array that the loop over [grid] writes for the
    coordinate [p], if the two subscripts are accepted. *)
Definition pixel (r o_x o_y : Z) (rows cols : nat) (p : point)
  : option (nat * nat) :=
  match np_index rows (round_div (snd p - o_y) r),
        np_index cols (round_div (fst p - o_x) r) with
  | Ok row, Ok col => Some (row, col)
  | _, _ => None
  end.

(** The value of the last entry written at [(row, col)], if any. *)
Fixpoint last_painted (px : point -> option (nat * nat)) (entries : dict)
  (row col : nat) : option bool :=
  match entries with
  | [] => None
  | (p, b) :: rest =>
      match last_painted px rest row col with
      | Some b' => Some b'
      | None =>
          match px p with
          | Some (r, c) =>
              if ((r =? row) && (c =? col))%nat then Some b else None
          | None => None
          end
      end
  end.

(** The number of cells along an axis whose bounds are [lo] and [hi]. *)
Definition axis_cells (r lo hi : Z) : nat :=
  Z.to_nat (round_div (Z.abs (hi - lo)) r + 1).

(** The cell of the output array on which the coordinate [p] lands, for the
    resolution and the bounds the scan ended with. *)
Definition out_pixel (st : state) (p : point) : option (nat * nat) :=
  match resolution st, min_x st, max_x st, min_y st, max_y st with
  | Some r, Some o_x, Some m_x, Some o_y, Some m_y =>
      pixel r o_x o_y (axis_cells r o_y m_y) (axis_cells r o_x m_x) p
  | _, _, _, _, _ => None
  end.

(** Source [k], of resolution [r] and origin [(ox, oy)], holds the value
    [v <> -1] at column [i], row [j]. *)
Definition cell_of (data : list (list Z)) (ress : list Z)
  (origins : list (Z * Z)) (sizes : list (nat * nat))
  (k : nat) (r ox oy : Z) (i j : nat) (v : Z) : Prop :=
  exists occupancy height width,
    nth_error data k = Some occupancy /\
    nth_error ress k = Some r /\
    nth_error origins k = Some (ox, oy) /\
    nth_error sizes k = Some (height, width) /\
    (i < width)%nat /\ (j < height)%nat /\
    nth_error occupancy (i + j * width) = Some v /\
    v <> -1.

(** Some source reports the value [v <> -1] at the world coordinate [p]. *)
Definition observes (data : list (list Z)) (ress : list Z)
  (origins : list (Z * Z)) (sizes : list (nat * nat)) (p : point) (v : Z)
  : Prop :=
  exists k r ox oy i j,
    cell_of data ress origins sizes k r ox oy i j v /\ world r ox oy i j = p.

(** [m <= z] for a running minimum [mn] that is no longer [inf]. *)
Definition le_min (mn : option Z) (z : Z) : Prop :=
  match mn with
  | Some m => m <= z
  | None => False
  end.

(** The merge gives the coordinate [p] the value of [b]: the scan records
    [b] for [p]; and when [merge_maps] returns, [p] lands on a cell of the
    array which holds the value of [b] as long as no coordinate recorded with
    the other value lands on that same cell. *)
Definition merged_value (data : list (list Z)) (ress : list Z)
  (origins : list (Z * Z)) (sizes : list (nat * nat)) (threshold : Z)
  (p : point) (b : bool) : Prop :=
  (forall st, scan_maps data ress origins sizes threshold = Ok st ->
     dict_get p (grid st) = Some b) /\
  (forall img, merge_maps data ress origins sizes threshold = Ok img ->
     exists st row col,
       scan_maps data ress origins sizes threshold = Ok st /\
       out_pixel st p = Some (row, col) /\
       ((forall q, In (q, negb b) (grid st) -> out_pixel st q <> Some (row, col)) ->
        cell img row col = cell_value b)).

(** [m <= z] for a running maximum [mx] that may still be [-inf]. *)
Definition max_le (mx : option Z) (z : Z) : Prop :=
  match mx with
  | Some m => m <= z
  | None => True
  end.

(** [z <= m] for a running maximum [mx] that is no longer [-inf]. *)
Definition ge_max (mx : option Z) (z : Z) : Prop :=
  match mx with
  | Some m => z <= m
  | None => False
  end.

(** The bounds once the corner cell of a source of origin [(ox, oy)] has
    been visited: the minima are the origin, the maxima are inside the
    frame. *)
Definition anchored (r ox oy : Z) (height width : nat) (st : state) : Prop :=
  min_x st = Some ox /\ min_y st = Some oy /\
  max_le (max_x st) (ox + (Z.of_nat width - 1) * r) /\
  max_le (max_y st) (oy + (Z.of_nat height - 1) * r).

(** The maxima are at or above the coordinate of column [i], row [j]. *)
Definition covers (r ox oy : Z) (i j : nat) (st : state) : Prop :=
  ge_max (max_x st) (Z.of_nat i * r + ox) /\
  ge_max (max_y st) (Z.of_nat j * r + oy).

(** What the scan leaves apart from the recorded values: the recorded
    coordinates in their order, the four bounds and the resolution. *)
Definition footprint (st : state)
  : list point * (option Z * option Z) * (option Z * option Z) * option Z :=
  (map fst (grid st), (min_x st, max_x st), (min_y st, max_y st), resolution st).

(** Two runs end alike: both return, with outcomes related by [R], or both
    raise the same exception. *)
Definition agree {S : Type} (R : S -> S -> Prop) (c1 c2 : result S) : Prop :=
  match c1, c2 with
  | Ok a, Ok b => R a b
  | Raise e1, Raise e2 => e1 = e2
  | _, _ => False
  end.

(** * Properties *)

(** ** Loops *)

Section PureLoops.
Context {S X : Type} (f : S -> X -> S) (P : S -> Prop).

Lemma fold_left_invariant (l : list X) :
  (forall s x, In x l -> P s -> P (f s x)) ->
  forall s, P s -> P (fold_left f l s).
Proof.
  induction l as [|y l IH]; simpl; intros Hstep s Hs; [exact Hs|].
  apply IH; [intros; apply Hstep; auto|].
  apply Hstep; auto.
Qed.

Lemma fold_left_reaches (l : list X) (x : X) :
  In x l ->
  (forall s, P (f s x)) ->
  (forall s y, In y l -> P s -> P (f s y)) ->
  forall s, P (fold_left f l s).
Proof.
  induction l as [|y l IH]; simpl; intros Hin Hx Hstep s; [contradiction|].
  destruct Hin as [->|Hin].
  - apply fold_left_invariant; [intros; apply Hstep; auto|apply Hx].
  - apply IH; auto.
Qed.
End PureLoops.

Lemma in_range (n k : nat) : In k (range n) <-> (k < n)%nat.
Proof. unfold range. rewrite in_seq. lia. Qed.

(** ** The bounding box of [get_map_img] *)

Section BoundsScan.
Local Open Scope nat_scope.

Variable k : nat -> nat -> bool.
Variables m n : nat.

Lemma scan_body_sound a b st :
  a < m -> b < n -> sound k m n st -> sound k m n (scan_body k n a st b).
Proof.
  intros Ha Hb [Hlo Hhi]. destruct st as [lo hi]. unfold sound, scan_body; simpl in *.
  split.
  - destruct (k a b) eqn:Hk; simpl; [|exact Hlo].
    destruct (b <? lo) eqn:Hlt; [|exact Hlo].
    right. split; [exact Hb|]. exists a. auto.
  - destruct (k a (n - b - 1)) eqn:Hk; simpl; [|exact Hhi].
    destruct (hi <? n - b - 1) eqn:Hlt; [|exact Hhi].
    right. split; [lia|]. exists a. auto.
Qed.

Lemma scan_bounds_sound : sound k m n (scan_bounds k m n).
Proof.
  unfold scan_bounds.
  apply fold_left_invariant.
  - intros st a Ha Hst. apply in_range in Ha.
    apply fold_left_invariant; [|exact Hst].
    intros st' b Hb Hst'. apply in_range in Hb.
    now apply scan_body_sound.
  - unfold sound; simpl. auto.
Qed.

Lemma scan_body_lo_mono a b c st :
  fst st <= c -> fst (scan_body k n a st b) <= c.
Proof.
  destruct st as [lo hi]; simpl. intros H.
  destruct (k a b && (b <? lo)) eqn:E; [|exact H].
  apply andb_true_iff in E as [_ E]. apply Nat.ltb_lt in E. lia.
Qed.

Lemma scan_body_hi_mono a b c st :
  c <= snd st -> c <= snd (scan_body k n a st b).
Proof.
  destruct st as [lo hi]; simpl. intros H.
  destruct (k a (n - b - 1) && (hi <? n - b - 1)) eqn:E; [|exact H].
  apply andb_true_iff in E as [_ E]. apply Nat.ltb_lt in E. lia.
Qed.

Lemma scan_body_lo_hit a b st :
  k a b = true -> fst (scan_body k n a st b) <= b.
Proof.
  destruct st as [lo hi]; simpl. intros ->. simpl.
  destruct (b <? lo) eqn:E; [lia|]. apply Nat.ltb_ge in E. exact E.
Qed.

Lemma scan_body_hi_hit a b st :
  k a (n - b - 1) = true -> n - b - 1 <= snd (scan_body k n a st b).
Proof.
  destruct st as [lo hi]; simpl. intros ->. simpl.
  destruct (hi <? n - b - 1) eqn:E; [lia|]. apply Nat.ltb_ge in E. exact E.
Qed.

Lemma scan_bounds_cover a b :
  a < m -> b < n -> k a b = true ->
  fst (scan_bounds k m n) <= b <= snd (scan_bounds k m n).
Proof.
  intros Ha Hb Hk. unfold scan_bounds. split.
  - apply (fold_left_reaches _ (fun st => fst st <= b)) with (x := a).
    + now apply in_range.
    + intros st.
      apply (fold_left_reaches _ (fun st => fst st <= b)) with (x := b).
      * now apply in_range.
      * intros st'. now apply scan_body_lo_hit.
      * intros st' y _. apply scan_body_lo_mono.
    + intros st y _ Hst.
      apply fold_left_invariant; [|exact Hst].
      intros st' z _. apply scan_body_lo_mono.
  - apply (fold_left_reaches _ (fun st => b <= snd st)) with (x := a).
    + now apply in_range.
    + intros st.
      apply (fold_left_reaches _ (fun st => b <= snd st)) with (x := n - b - 1).
      * apply in_range. lia.
      * intros st'.
        assert (E : n - (n - b - 1) - 1 = b) by lia.
        pose proof (scan_body_hi_hit a (n - b - 1) st') as H.
        rewrite E in H. now apply H.
      * intros st' y _. apply scan_body_hi_mono.
    + intros st y _ Hst.
      apply fold_left_invariant; [|exact Hst].
      intros st' z _. apply scan_body_hi_mono.
Qed.

(** With one known cell, the scan ends on the least and the greatest
    inner positions that hold a known cell. *)
Lemma scan_bounds_tight a0 b0 :
  a0 < m -> b0 < n -> k a0 b0 = true ->
  (exists a, a < m /\ k a (fst (scan_bounds k m n)) = true) /\
  (exists a, a < m /\ k a (snd (scan_bounds k m n)) = true) /\
  snd (scan_bounds k m n) < n /\
  forall a b, a < m -> b < n -> k a b = true ->
    fst (scan_bounds k m n) <= b <= snd (scan_bounds k m n).
Proof.
  intros Ha Hb Hk.
  pose proof scan_bounds_sound as [Hlo Hhi].
  pose proof (scan_bounds_cover a0 b0 Ha Hb Hk) as Hc.
  split; [|split; [|split]].
  - destruct Hlo as [Hlo|[_ Hlo]]; [lia|exact Hlo].
  - destruct Hhi as [Hhi|[_ Hhi]]; [|exact Hhi].
    exists a0. split; [exact Ha|]. replace (snd (scan_bounds k m n)) with b0 by lia. exact Hk.
  - destruct Hhi as [Hhi|[Hhi _]]; lia.
  - intros a b. apply scan_bounds_cover.
Qed.
End BoundsScan.

Lemma col_bounds_scan img height width :
  col_bounds img height width = scan_bounds (known img) height width.
Proof. reflexivity. Qed.

Lemma row_bounds_scan img height width :
  row_bounds img height width =
  scan_bounds (fun j i => known img i j) width height.
Proof. reflexivity. Qed.

(** ** Reshaping *)

Lemma chunks_length {A : Type} (rows width : nat) (l : list A) :
  length (chunks rows width l) = rows.
Proof.
  revert l. induction rows as [|rows IH]; intros l; simpl; [reflexivity|].
  now rewrite IH.
Qed.

(** Row [i], column [j] of the reshaped array is element [i * width + j] of
    the flat sequence. *)
Lemma cell_reshape (cells : list Z) (height width i j : nat) :
  length cells = (height * width)%nat -> (i < height)%nat -> (j < width)%nat ->
  nth_error cells (i * width + j) = Some (cell (chunks height width cells) i j).
Proof.
  revert cells i. induction height as [|height IH]; intros cells i Hlen Hi Hj; [lia|].
  simpl chunks. destruct i as [|i]; unfold cell; simpl.
  - assert (Hj' : (j < length (firstn width cells))%nat)
      by (rewrite length_firstn; simpl in Hlen; lia).
    rewrite <- (nth_error_nth' _ (-1)%Z Hj'), nth_error_firstn.
    apply Nat.ltb_lt in Hj. now rewrite Hj.
  - rewrite <- Nat.add_assoc, <- nth_error_skipn.
    apply IH; [|lia|exact Hj].
    rewrite length_skipn. simpl in Hlen. lia.
Qed.

Lemma clamp_low_max (m : nat) (padding : Z) :
  clamp_low m padding = Z.max (Z.of_nat m) padding.
Proof.
  unfold clamp_low. destruct (Z.ltb_spec (Z.of_nat m) padding); lia.
Qed.

(** A flat sequence with an element different from -1 reshapes to an array
    with a known cell. *)
Lemma known_reshape (cells : list Z) (height width idx : nat) (v : Z) :
  length cells = (height * width)%nat ->
  nth_error cells idx = Some v -> v <> (-1)%Z ->
  exists i j, (i < height)%nat /\ (j < width)%nat /\
    known (chunks height width cells) i j = true.
Proof.
  intros Hlen Hidx Hv.
  assert (Hlt : (idx < height * width)%nat).
  { rewrite <- Hlen. apply nth_error_Some. congruence. }
  assert (Hw : (0 < width)%nat) by (destruct width; lia).
  exists (idx / width)%nat, (idx mod width)%nat.
  assert (Hi : (idx / width < height)%nat)
    by (apply Nat.Div0.div_lt_upper_bound; lia).
  assert (Hj : (idx mod width < width)%nat) by (apply Nat.mod_upper_bound; lia).
  split; [exact Hi|]. split; [exact Hj|].
  pose proof (cell_reshape cells height width _ _ Hlen Hi Hj) as Hc.
  replace (idx / width * width + idx mod width)%nat with idx in Hc
    by (rewrite (Nat.div_mod_eq idx width) at 1; lia).
  rewrite Hidx in Hc. injection Hc as Hc.
  unfold known. rewrite <- Hc. apply negb_true_iff. now apply Z.eqb_neq.
Qed.


(** C7.  Crop idempotence does not hold: the slice stops before
    [max_row + padding] and [max_col + padding], so with [padding = 0] a
    tightly cropped grid loses its last row and its last column. *)
Theorem crop_tight_grid_drops_last_row_and_column :
  get_map_img [0] (1, 1)%nat true 0 = Ok [] /\
  get_map_img [1; 2; 3; 4] (2, 2)%nat true 0 = Ok [[1]] /\
  tight_box [[1; 2]; [3; 4]] 2 2 0 1 0 1.
Proof.
  split; [reflexivity|]. split; [reflexivity|].
  unfold tight_box.
  split; [exists 0%nat; split; [lia|reflexivity]|].
  split; [exists 0%nat; split; [lia|reflexivity]|].
  split; [exists 0%nat; split; [lia|reflexivity]|].
  split; [exists 0%nat; split; [lia|reflexivity]|].
  split; [lia|]. split; [lia|]. intros i j Hi Hj _. lia.
Qed.

(** ** Loops that may raise *)

Lemma bind_ok {A B : Type} (c : result A) (k : A -> result B) (b : B) :
  bind c k = Ok b -> exists a, c = Ok a /\ k a = Ok b.
Proof. destruct c as [a|e]; simpl; [eauto|discriminate]. Qed.

Lemma subscript_ok {A : Type} (l : list A) (k : nat) (a : A) :
  subscript l k = Ok a <-> nth_error l k = Some a.
Proof.
  unfold subscript. destruct (nth_error l k); split; intros H;
    (discriminate || now injection H as ->).
Qed.

Lemma subscript_short {A : Type} (l : list A) (k : nat) :
  (length l <= k)%nat -> subscript l k = Raise IndexError.
Proof.
  intros H. unfold subscript. apply nth_error_None in H. now rewrite H.
Qed.

Section Loops.
Context {X S : Type} (body : X -> S -> result S).

Lemma for_each_app (l1 l2 : list X) (s : S) :
  for_each (l1 ++ l2) body s = (s' <- for_each l1 body s ;; for_each l2 body s').
Proof.
  revert s. induction l1 as [|x l1 IH]; intros s; simpl; [reflexivity|].
  destruct (body x s); simpl; [apply IH|reflexivity].
Qed.

Lemma for_each_invariant (P : S -> Prop) (l : list X) :
  (forall x s s', In x l -> body x s = Ok s' -> P s -> P s') ->
  forall s s', for_each l body s = Ok s' -> P s -> P s'.
Proof.
  induction l as [|y l IH]; simpl; intros Hstep s s' Hrun Hs.
  - now injection Hrun as <-.
  - apply bind_ok in Hrun as (s1 & Hy & Hrun).
    apply IH with (s := s1); [intros; eapply Hstep; eauto|exact Hrun|].
    apply (Hstep y s s1); auto.
Qed.

Lemma for_each_reaches (P : S -> Prop) (l : list X) (x : X) :
  In x l ->
  (forall s s', body x s = Ok s' -> P s') ->
  (forall y s s', In y l -> body y s = Ok s' -> P s -> P s') ->
  forall s s', for_each l body s = Ok s' -> P s'.
Proof.
  induction l as [|y l IH]; simpl; intros Hin Hx Hstep s s' Hrun; [contradiction|].
  apply bind_ok in Hrun as (s1 & Hy & Hrun).
  destruct Hin as [->|Hin].
  - apply for_each_invariant with (l := l) (s := s1);
      [intros; eapply Hstep; eauto|exact Hrun|].
    now apply (Hx s).
  - apply IH with (s := s1); [exact Hin|exact Hx| |exact Hrun].
    intros; eapply Hstep; eauto.
Qed.

(** A loop one of whose iterations always raises never completes. *)
Lemma for_each_fails (l : list X) (x : X) :
  In x l -> (forall s, fails (body x s)) -> forall s, fails (for_each l body s).
Proof.
  induction l as [|y l IH]; simpl; intros Hin Hx s; [contradiction|].
  destruct (body y s) as [s1|e] eqn:Hy; simpl.
  - destruct Hin as [->|Hin]; [|now apply IH].
    destruct (Hx s) as [e He]. congruence.
  - now exists e.
Qed.

(** A loop whose iterations leave the state alone ends on it. *)
Lemma for_each_idle (l : list X) (s : S) :
  (forall x, In x l -> body x s = Ok s) -> for_each l body s = Ok s.
Proof.
  induction l as [|y l IH]; simpl; intros H; [reflexivity|].
  rewrite (H y (or_introl eq_refl)). simpl. apply IH. auto.
Qed.
End Loops.

Lemma range_succ (n : nat) : range (S n) = range n ++ [n].
Proof. unfold range. now rewrite seq_S. Qed.

(** ** The dictionary *)

Lemma point_eqb_eq (p q : point) : point_eqb p q = true <-> p = q.
Proof.
  destruct p as [a b], q as [c d]. unfold point_eqb; simpl.
  rewrite andb_true_iff, !Z.eqb_eq. split; [intros [-> ->]; reflexivity|].
  intros H; injection H; auto.
Qed.

Lemma point_eqb_refl (p : point) : point_eqb p p = true.
Proof. now apply point_eqb_eq. Qed.

Lemma point_eqb_neq (p q : point) : point_eqb p q = false <-> p <> q.
Proof.
  rewrite <- point_eqb_eq. destruct (point_eqb p q); split; congruence.
Qed.

Lemma dict_get_set (p q : point) (b : bool) (d : dict) :
  dict_get q (dict_set p b d) = if point_eqb q p then Some b else dict_get q d.
Proof.
  induction d as [|[k c] d IH]; simpl.
  - destruct (point_eqb q p); reflexivity.
  - destruct (point_eqb p k) eqn:Hpk; simpl.
    + apply point_eqb_eq in Hpk as ->. destruct (point_eqb q k); reflexivity.
    + destruct (point_eqb q k) eqn:Hqk; [|exact IH].
      apply point_eqb_eq in Hqk as ->.
      destruct (point_eqb k p) eqn:Hkp; [|reflexivity].
      apply point_eqb_eq in Hkp as ->. rewrite point_eqb_refl in Hpk. discriminate.
Qed.

(** What [record_cell] leaves at each key: an obstacle is written whatever
    was there, a free cell only where nothing was. *)
Lemma dict_get_record_cell (threshold v : Z) (p q : point) (d : dict) :
  dict_get q (record_cell threshold v p d) =
  if point_eqb q p then
    if threshold <? v then Some true
    else match dict_get p d with
         | Some b => Some b
         | None => Some false
         end
  else dict_get q d.
Proof.
  unfold record_cell, dict_mem.
  destruct (threshold <? v).
  - apply dict_get_set.
  - destruct (dict_get p d) as [b|] eqn:Hp.
    + destruct (point_eqb q p) eqn:Hqp; [|reflexivity].
      apply point_eqb_eq in Hqp as ->. exact Hp.
    + rewrite dict_get_set. destruct (point_eqb q p); reflexivity.
Qed.

(** ** The scan: what does not depend on the cells *)

Lemma fails_bind {A B : Type} (c : result A) (k : A -> result B) :
  fails c -> fails (bind c k).
Proof. intros [e ->]. now exists e. Qed.

Lemma visit_resolution threshold res ox oy i j v st :
  resolution (visit threshold res ox oy i j v st) = resolution st.
Proof.
  unfold visit. destruct (v =? -1); [reflexivity|].
  destruct (track _ (min_x st) (max_x st)), (track _ (min_y st) (max_y st)).
  reflexivity.
Qed.

(** A property of the state that every visited cell keeps is kept by the
    scan of a source. *)
Lemma scan_source_invariant (P : state -> Prop) threshold occupancy res ox oy
  height width :
  (forall i j v st, (i < width)%nat -> (j < height)%nat ->
     nth_error occupancy (i + j * width) = Some v ->
     P st -> P (visit threshold res ox oy i j v st)) ->
  forall st st',
    scan_source threshold occupancy res ox oy height width st = Ok st' ->
    P st -> P st'.
Proof.
  intros Hvisit st st'. unfold scan_source.
  apply for_each_invariant. intros i s s' Hi.
  apply for_each_invariant. intros j t t' Hj Hbody.
  apply bind_ok in Hbody as (v & Hv & Hbody). injection Hbody as <-.
  apply Hvisit; [now apply in_range|now apply in_range|now apply subscript_ok].
Qed.

Lemma scan_source_resolution threshold occupancy res ox oy height width st st' :
  scan_source threshold occupancy res ox oy height width st = Ok st' ->
  resolution st' = resolution st.
Proof.
  intros H.
  apply (scan_source_invariant (fun s => resolution s = resolution st)) in H;
    [exact H| |reflexivity].
  intros i j v s _ _ _ Hs. now rewrite visit_resolution.
Qed.

(** What one iteration of the loop over the sources reads. *)
Lemma source_body_ok data ress origins sizes threshold index st st' :
  source_body data ress origins sizes threshold index st = Ok st' ->
  exists occupancy res ox oy height width,
    nth_error data index = Some occupancy /\
    nth_error ress index = Some res /\
    nth_error origins index = Some (ox, oy) /\
    nth_error sizes index = Some (height, width) /\
    scan_source threshold occupancy res ox oy height width
      (bind_resolution res st) = Ok st'.
Proof.
  unfold source_body. intros H.
  apply bind_ok in H as (occupancy & H1 & H).
  apply bind_ok in H as (res & H2 & H).
  apply bind_ok in H as ([ox oy] & H3 & H).
  apply bind_ok in H as ([height width] & H4 & H).
  exists occupancy, res, ox, oy, height, width.
  apply subscript_ok in H1, H2, H3, H4. auto 6.
Qed.

(** After the scan of one source or more, [resolution] is bound to the
    resolution of the last source. *)
Lemma scan_maps_resolution data ress origins sizes threshold st :
  scan_maps data ress origins sizes threshold = Ok st ->
  data <> [] ->
  exists res, nth_error ress (length data - 1) = Some res /\
              resolution st = Some res.
Proof.
  unfold scan_maps. intros Hrun Hne.
  destruct (length data) as [|n] eqn:Hlen; [destruct data; [congruence|discriminate]|].
  rewrite range_succ, for_each_app in Hrun.
  apply bind_ok in Hrun as (s1 & _ & Hrun). simpl in Hrun.
  apply bind_ok in Hrun as (s2 & Hbody & Hrun). injection Hrun as <-.
  apply source_body_ok in Hbody
    as (occupancy & res & ox & oy & height & width & _ & Hres & _ & _ & Hscan).
  exists res. replace (S n - 1)%nat with n by lia. split; [exact Hres|].
  now rewrite (scan_source_resolution _ _ _ _ _ _ _ _ _ Hscan).
Qed.

(** C3.  The running maxima are not the true maxima: [elif] skips the
    comparison with the maximum whenever the coordinate lowers the minimum.
    A single 1x1 source leaves [max_x] and [max_y] at [-inf] although the
    cell at world (0, 0) was visited, and the size computation then fails; a
    3x2 source whose first visited cell is alone on the highest row ends with
    [max_y = 1] although row 2 was visited. *)
Theorem merge_bounds_miss_maximum :
  scan_maps [[0]] [1] [(0, 0)] [(1, 1)%nat] 70 =
    Ok {| grid := [((0, 0), false)];
          min_x := Some 0; min_y := Some 0; max_x := None; max_y := None;
          resolution := Some 1 |} /\
  merge_maps [[0]] [1] [(0, 0)] [(1, 1)%nat] 70 = Raise OverflowError /\
  scan_maps [[-1; 0; -1; 0; 0; -1]] [1] [(0, 0)] [(3, 2)%nat] 70 =
    Ok {| grid := [((0, 2), false); ((1, 0), false); ((1, 1), false)];
          min_x := Some 0; min_y := Some 0; max_x := Some 1; max_y := Some 1;
          resolution := Some 1 |} /\
  merge_maps [[-1; 0; -1; 0; 0; -1]] [1] [(0, 0)] [(3, 2)%nat] 70 =
    Raise IndexError.
Proof. repeat split; reflexivity. Qed.

(** ** The exceptions of the scan *)

Section RaisingLoops.
Context {X S : Type} (body : X -> S -> result S).

Lemma for_each_raises (Q : error -> Prop) (l : list X) :
  (forall x s e, In x l -> body x s = Raise e -> Q e) ->
  forall s e, for_each l body s = Raise e -> Q e.
Proof.
  induction l as [|y l IH]; simpl; intros H s e Hrun; [discriminate|].
  destruct (body y s) as [s1|e1] eqn:Hy; simpl in Hrun.
  - apply (IH (fun x t e' Hx => H x t e' (or_intror Hx)) s1 e Hrun).
  - injection Hrun as <-. apply (H y s e1); auto.
Qed.

(** A loop with one iteration that does something does what it does. *)
Lemma for_each_single (l : list X) (x : X) (s : S) :
  NoDup l -> In x l ->
  (forall y t, In y l -> y <> x -> body y t = Ok t) ->
  for_each l body s = body x s.
Proof.
  revert s. induction l as [|y l IH]; simpl; intros s Hnd Hin Hidle;
    [contradiction|].
  inversion Hnd as [|? ? Hy Hnd']; subst.
  destruct Hin as [->|Hin].
  - destruct (body x s) as [s1|e]; simpl; [|reflexivity].
    apply for_each_idle. intros z Hz. apply Hidle; [now right|].
    intros ->. contradiction.
  - rewrite (Hidle y s (or_introl eq_refl)) by (intros ->; contradiction).
    simpl. apply IH; auto.
Qed.
End RaisingLoops.

Lemma subscript_raises {A : Type} (l : list A) (k : nat) (e : error) :
  subscript l k = Raise e -> e = IndexError.
Proof. unfold subscript. destruct (nth_error l k); congruence. Qed.

(** The scan raises nothing but [IndexError]. *)
Lemma scan_maps_raises data ress origins sizes threshold e :
  scan_maps data ress origins sizes threshold = Raise e -> e = IndexError.
Proof.
  unfold scan_maps.
  apply (for_each_raises _ (fun e0 => e0 = IndexError)). intros k s e' _.
  unfold source_body.
  destruct (subscript data k) as [occupancy|e1] eqn:E1; simpl;
    [|intros H; injection H as <-; now apply subscript_raises in E1].
  destruct (subscript ress k) as [r|e2] eqn:E2; simpl;
    [|intros H; injection H as <-; now apply subscript_raises in E2].
  destruct (subscript origins k) as [[ox oy]|e3] eqn:E3; simpl;
    [|intros H; injection H as <-; now apply subscript_raises in E3].
  destruct (subscript sizes k) as [[height width]|e4] eqn:E4; simpl;
    [|intros H; injection H as <-; now apply subscript_raises in E4].
  unfold scan_source.
  apply (for_each_raises _ (fun e0 => e0 = IndexError)). intros i t e'' _.
  apply (for_each_raises _ (fun e0 => e0 = IndexError)). intros j u e3 _.
  destruct (subscript occupancy (i + j * width)) as [v|e5] eqn:E5; simpl;
    [discriminate|].
  intros H; injection H as <-. now apply subscript_raises in E5.
Qed.


(** Two loop bodies that agree on the elements of the list give the same
    loop. *)
Lemma for_each_ext {X S : Type} (body1 body2 : X -> S -> result S) (l : list X) :
  (forall x s, In x l -> body1 x s = body2 x s) ->
  forall s, for_each l body1 s = for_each l body2 s.
Proof.
  induction l as [|y l IH]; simpl; intros H s; [reflexivity|].
  rewrite (H y s (or_introl eq_refl)).
  destruct (body2 y s) as [s1|e]; simpl; [|reflexivity].
  apply IH. intros x t Hx. apply H. now right.
Qed.

(** Entries appended to a list are not seen by a subscript inside it. *)
Lemma subscript_app {A : Type} (l extra : list A) (k : nat) :
  (k < length l)%nat -> subscript (l ++ extra) k = subscript l k.
Proof. intros H. unfold subscript. now rewrite nth_error_app1. Qed.

(** The scan reads the lists of resolutions, origins and sizes at the
    positions of the grids only. *)
Lemma scan_maps_extra_frames
  (data : list (list Z)) (ress extra_ress : list Z)
  (origins extra_origins : list (Z * Z))
  (sizes extra_sizes : list (nat * nat)) (threshold : Z) :
  (length data <= length ress)%nat ->
  (length data <= length origins)%nat ->
  (length data <= length sizes)%nat ->
  scan_maps data (ress ++ extra_ress) (origins ++ extra_origins)
    (sizes ++ extra_sizes) threshold =
  scan_maps data ress origins sizes threshold.
Proof.
  intros Hr Ho Hs. unfold scan_maps. apply for_each_ext.
  intros index st Hin. apply in_range in Hin. unfold source_body.
  now rewrite !subscript_app by lia.
Qed.

(** C8.  Arity: [merge_maps] checks no lengths.  With no source it raises
    [UnboundLocalError]: the loop binds no resolution for line 146 to read.
    When the list of resolutions, of origins or of sizes is shorter than the
    list of grids it raises [IndexError], at the subscript of the first
    missing position or earlier.  When the three lists are at least as long
    as the list of grids, entries appended to them are never read: the call
    returns or raises exactly as without them. *)
Theorem merge_fails_on_missing_frames
  (data : list (list Z)) (ress : list Z) (origins : list (Z * Z))
  (sizes : list (nat * nat)) (threshold : Z) :
  (data = [] ->
   merge_maps data ress origins sizes threshold = Raise UnboundLocalError) /\
  ((length ress < length data)%nat \/
   (length origins < length data)%nat \/
   (length sizes < length data)%nat ->
   merge_maps data ress origins sizes threshold = Raise IndexError) /\
  ((length data <= length ress)%nat ->
   (length data <= length origins)%nat ->
   (length data <= length sizes)%nat ->
   forall (extra_ress : list Z) (extra_origins : list (Z * Z))
          (extra_sizes : list (nat * nat)),
     merge_maps data (ress ++ extra_ress) (origins ++ extra_origins)
       (sizes ++ extra_sizes) threshold =
     merge_maps data ress origins sizes threshold).
Proof.
  split; [|split].
  - intros ->. reflexivity.
  - intros Hshort.
    assert (Hfail : fails (scan_maps data ress origins sizes threshold)).
    { unfold scan_maps.
      assert (Hidx : exists index, (index < length data)%nat /\
                ((length ress <= index)%nat \/ (length origins <= index)%nat \/
                 (length sizes <= index)%nat)).
      { destruct Hshort as [H|[H|H]];
          [exists (length ress)|exists (length origins)|exists (length sizes)];
          (split; [exact H|auto]). }
      destruct Hidx as (index & Hlt & Hmiss).
      apply for_each_fails with (x := index); [now apply in_range|].
      intros st. unfold source_body.
      destruct (subscript data index) as [occupancy|e]; [simpl|now exists e].
      destruct (subscript ress index) as [res|e] eqn:E2; [simpl|now exists e].
      destruct (subscript origins index) as [[ox oy]|e] eqn:E3;
        [simpl|now exists e].
      destruct (subscript sizes index) as [[height width]|e] eqn:E4;
        [simpl|now exists e].
      destruct Hmiss as [H|[H|H]]; apply subscript_short in H; congruence. }
    destruct Hfail as [e He]. unfold merge_maps. rewrite He. simpl.
    now rewrite (scan_maps_raises _ _ _ _ _ _ He).
  - intros Hr Ho Hs extra_ress extra_origins extra_sizes. unfold merge_maps.
    now rewrite scan_maps_extra_frames.
Qed.

(** C9.  Zero resolution: [merge_maps] raises when the resolution of the
    last source is 0, the only resolution it divides by; when the scan
    completes, the exception is the division by zero. *)
Theorem merge_fails_on_zero_last_resolution
  (data : list (list Z)) (ress : list Z) (origins : list (Z * Z))
  (sizes : list (nat * nat)) (threshold : Z) :
  data <> [] ->
  nth_error ress (length data - 1) = Some 0 ->
  fails (merge_maps data ress origins sizes threshold) /\
  forall st, scan_maps data ress origins sizes threshold = Ok st ->
    merge_maps data ress origins sizes threshold = Raise ZeroDivisionError.
Proof.
  intros Hne Hzero.
  assert (Hdiv : forall st, scan_maps data ress origins sizes threshold = Ok st ->
            merge_maps data ress origins sizes threshold = Raise ZeroDivisionError).
  { intros st Hscan. unfold merge_maps. rewrite Hscan. simpl.
    destruct (scan_maps_resolution _ _ _ _ _ _ Hscan Hne) as (res & Hres & Hst).
    assert (res = 0) by congruence. subst res.
    unfold rasterize. now rewrite Hst. }
  split; [|exact Hdiv].
  destruct (scan_maps data ress origins sizes threshold) as [st|e] eqn:Hscan.
  - exists ZeroDivisionError. now apply (Hdiv st).
  - exists e. unfold merge_maps. now rewrite Hscan.
Qed.

(** ** Sources without a known cell *)

Lemma Forall2_nth_error {A B : Type} (R : A -> B -> Prop) (l1 : list A)
  (l2 : list B) (k : nat) (a : A) :
  Forall2 R l1 l2 -> nth_error l1 k = Some a ->
  exists b, nth_error l2 k = Some b /\ R a b.
Proof.
  intros H. revert k. induction H as [|x y l1 l2 Hxy _ IH]; intros k Hk.
  - destruct k; discriminate.
  - destruct k as [|k]; simpl in *; [|now apply IH].
    injection Hk as <-. eauto.
Qed.

Lemma scan_source_all_unknown threshold occupancy res ox oy height width st :
  length occupancy = (height * width)%nat ->
  Forall (fun v => v = -1) occupancy ->
  scan_source threshold occupancy res ox oy height width st = Ok st.
Proof.
  intros Hlen Hall. unfold scan_source.
  apply for_each_idle. intros i Hi. apply for_each_idle. intros j Hj.
  apply in_range in Hi, Hj. unfold subscript.
  destruct (nth_error occupancy (i + j * width)) as [v|] eqn:E; simpl.
  - rewrite Forall_forall in Hall.
    rewrite (Hall v (nth_error_In _ _ E)). reflexivity.
  - apply nth_error_None in E. nia.
Qed.

Lemma scan_maps_all_unknown data ress origins sizes threshold :
  length ress = length data ->
  length origins = length data ->
  Forall2 (fun occupancy size =>
             length occupancy = (fst size * snd size)%nat /\
             Forall (fun v => v = -1) occupancy) data sizes ->
  forall n, (n <= length data)%nat ->
  exists st,
    for_each (range n) (source_body data ress origins sizes threshold) initial
      = Ok st /\ untouched st.
Proof.
  intros Hress Horigins Hall n. induction n as [|n IH]; intros Hn.
  - exists initial. split; [reflexivity|]. unfold untouched. simpl. auto.
  - destruct IH as (st & Hrun & Hst); [lia|].
    rewrite range_succ, for_each_app, Hrun. simpl.
    destruct (nth_error data n) as [occupancy|] eqn:E1;
      [|apply nth_error_None in E1; lia].
    destruct (nth_error ress n) as [res|] eqn:E2;
      [|apply nth_error_None in E2; lia].
    destruct (nth_error origins n) as [[ox oy]|] eqn:E3;
      [|apply nth_error_None in E3; lia].
    destruct (Forall2_nth_error _ _ _ _ _ Hall E1) as ([height width] & E4 & Hlen & Hunk).
    simpl in Hlen.
    exists (bind_resolution res st). split.
    + unfold source_body, subscript. rewrite E1, E2, E3, E4. simpl.
      rewrite (scan_source_all_unknown _ _ _ _ _ _ _ _ Hlen Hunk). reflexivity.
    + unfold untouched in *. simpl. exact Hst.
Qed.

(** C10.  All-unknown input: with one source or more, lists of equal length
    and every cell of every grid equal to -1, the scan visits no coordinate
    and leaves the four bounds at their infinite sentinels; the computation
    of the output size then raises (the division by a zero resolution, or
    the rounding of an infinite quotient), and no array is returned. *)
Theorem merge_all_unknown_fails
  (data : list (list Z)) (ress : list Z) (origins : list (Z * Z))
  (sizes : list (nat * nat)) (threshold : Z) :
  data <> [] ->
  length ress = length data ->
  length origins = length data ->
  Forall2 (fun occupancy size =>
             length occupancy = (fst size * snd size)%nat /\
             Forall (fun v => v = -1) occupancy) data sizes ->
  exists st e,
    scan_maps data ress origins sizes threshold = Ok st /\
    grid st = [] /\
    min_x st = None /\ max_x st = None /\ min_y st = None /\ max_y st = None /\
    round_quot (extent (max_y st) (min_y st)) (resolution st) = Raise e /\
    (e = ZeroDivisionError \/ e = OverflowError) /\
    merge_maps data ress origins sizes threshold = Raise e.
Proof.
  intros Hne Hress Horigins Hall.
  destruct (scan_maps_all_unknown data ress origins sizes threshold
              Hress Horigins Hall (length data) (le_n _))
    as (st & Hrun & Hgrid & Hmnx & Hmxx & Hmny & Hmxy).
  fold (scan_maps data ress origins sizes threshold) in Hrun.
  destruct (scan_maps_resolution _ _ _ _ _ _ Hrun Hne) as (res & _ & Hres).
  assert (Hsize : exists e,
            round_quot (extent (max_y st) (min_y st)) (resolution st) = Raise e /\
            (e = ZeroDivisionError \/ e = OverflowError)).
  { rewrite Hmxy, Hmny, Hres. simpl. destruct (res =? 0); eauto. }
  destruct Hsize as (e & Hsize & He).
  exists st, e. repeat (split; [assumption|]).
  unfold merge_maps. rewrite Hrun. simpl. unfold rasterize. now rewrite Hsize.
Qed.

(** ** The output array *)

Lemma list_set_length {A : Type} (k : nat) (a : A) (l : list A) :
  length (list_set k a l) = length l.
Proof.
  revert k. induction l as [|h t IH]; intros [|k]; simpl; try reflexivity.
  now rewrite IH.
Qed.

Lemma nth_list_set {A : Type} (k k' : nat) (a d : A) (l : list A) :
  (k < length l)%nat ->
  nth k' (list_set k a l) d = if (k' =? k)%nat then a else nth k' l d.
Proof.
  revert k k'. induction l as [|h t IH]; intros k k' Hk; simpl in Hk; [lia|].
  destruct k as [|k], k' as [|k']; simpl; try reflexivity.
  apply IH. lia.
Qed.

Lemma Forall_list_set {A : Type} (P : A -> Prop) (k : nat) (a : A) (l : list A) :
  P a -> Forall P l -> Forall P (list_set k a l).
Proof.
  intros Ha Hl. revert k.
  induction Hl as [|h t Hh Ht IH]; intros [|k]; simpl; constructor; auto.
Qed.

Lemma shape_full (rows cols : nat) (v : Z) :
  shape (repeat (repeat v cols) rows) rows cols.
Proof.
  split; [apply repeat_length|].
  apply Forall_forall. intros row Hrow. apply repeat_spec in Hrow as ->.
  apply repeat_length.
Qed.

Lemma cell_full (rows cols : nat) (v : Z) (row col : nat) :
  (row < rows)%nat -> (col < cols)%nat ->
  cell (repeat (repeat v cols) rows) row col = v.
Proof.
  intros Hrow Hcol. unfold cell.
  rewrite (nth_repeat_lt _ _ Hrow). now apply nth_repeat_lt.
Qed.

Lemma shape_row (img : list (list Z)) (rows cols row : nat) (l : list Z) :
  shape img rows cols -> nth_error img row = Some l -> length l = cols.
Proof.
  intros [_ H] Hl. rewrite Forall_forall in H. apply H.
  now apply nth_error_In with row.
Qed.

Lemma shape_img_set (img : list (list Z)) (rows cols r c : nat) (v : Z) :
  shape img rows cols -> shape (img_set r c v img) rows cols.
Proof.
  intros Hs. unfold img_set. destruct (nth_error img r) as [row|] eqn:E; [|exact Hs].
  pose proof (shape_row _ _ _ _ _ Hs E) as Hrow. destruct Hs as [Hlen Hall].
  split; [now rewrite list_set_length|].
  apply Forall_list_set; [|exact Hall]. now rewrite list_set_length.
Qed.

Lemma cell_img_set (img : list (list Z)) (rows cols r c r' c' : nat) (v : Z) :
  shape img rows cols -> (r < rows)%nat -> (c < cols)%nat ->
  cell (img_set r c v img) r' c' =
  if ((r' =? r) && (c' =? c))%nat then v else cell img r' c'.
Proof.
  intros Hs Hr Hc. unfold img_set.
  destruct (nth_error img r) as [row|] eqn:E.
  - pose proof (shape_row _ _ _ _ _ Hs E) as Hrow.
    assert (Hr' : (r < length img)%nat) by (destruct Hs; lia).
    unfold cell. rewrite (nth_list_set r r' _ [] img Hr').
    destruct (Nat.eqb_spec r' r) as [->|Hne]; simpl; [|reflexivity].
    rewrite nth_list_set by lia.
    rewrite (nth_error_nth img r [] E). reflexivity.
  - apply nth_error_None in E. destruct Hs. lia.
Qed.

Lemma np_index_lt (n : nat) (k : Z) (i : nat) :
  np_index n k = Ok i -> (i < n)%nat.
Proof.
  unfold np_index.
  destruct ((0 <=? k) && (k <? Z.of_nat n)) eqn:E1.
  - intros H; injection H as <-. apply andb_true_iff in E1 as [H1 H2]. lia.
  - destruct ((k <? 0) && (- Z.of_nat n <=? k)) eqn:E2; [|discriminate].
    intros H; injection H as <-. apply andb_true_iff in E2 as [H1 H2]. lia.
Qed.

Lemma np_index_in_range (n : nat) (k : Z) :
  0 <= k < Z.of_nat n -> np_index n k = Ok (Z.to_nat k).
Proof.
  intros H. unfold np_index.
  destruct (Z.leb_spec 0 k), (Z.ltb_spec k (Z.of_nat n)); simpl; (reflexivity || lia).
Qed.

Lemma pixel_lt r o_x o_y rows cols p row col :
  pixel r o_x o_y rows cols p = Some (row, col) ->
  (row < rows)%nat /\ (col < cols)%nat.
Proof.
  unfold pixel.
  destruct (np_index rows (round_div (snd p - o_y) r)) as [a|] eqn:E1;
    [|discriminate].
  destruct (np_index cols (round_div (fst p - o_x) r)) as [b|] eqn:E2;
    [|discriminate].
  intros H; injection H as <- <-.
  split; eapply np_index_lt; eauto.
Qed.

Lemma paint_pixel (r o_x o_y : Z) (rows cols : nat) (p : point) (b : bool)
  (img : list (list Z)) :
  r <> 0 ->
  paint (Some r) (Some o_x) (Some o_y) rows cols (p, b) img =
  match pixel r o_x o_y rows cols p with
  | Some (row, col) => Ok (img_set row col (cell_value b) img)
  | None => Raise IndexError
  end.
Proof.
  intros Hr. destruct p as [x y]. unfold paint, round_quot, offset, store, pixel.
  apply Z.eqb_neq in Hr. rewrite Hr. simpl.
  assert (Herr : forall n k e, np_index n k = Raise e -> e = IndexError).
  { intros n k e. unfold np_index.
    destruct (_ && _); [discriminate|]. destruct (_ && _); congruence. }
  destruct (np_index rows (round_div (y - o_y) r)) as [row|e1] eqn:E1; simpl.
  - destruct (np_index cols (round_div (x - o_x) r)) as [col|e2] eqn:E2; simpl;
      [reflexivity|].
    now rewrite (Herr _ _ _ E2).
  - rewrite (Herr _ _ _ E1).
    destruct (np_index cols (round_div (x - o_x) r)); reflexivity.
Qed.

(** The loop over [grid] writes, at each cell, the value of the last entry
    that lands on it, and leaves the other cells alone. *)
Lemma paint_loop (r o_x o_y : Z) (rows cols : nat) (entries : dict) :
  r <> 0 ->
  forall img0 img,
  shape img0 rows cols ->
  for_each entries (paint (Some r) (Some o_x) (Some o_y) rows cols) img0 = Ok img ->
  shape img rows cols /\
  (forall p b, In (p, b) entries -> pixel r o_x o_y rows cols p <> None) /\
  forall row col,
    cell img row col =
    match last_painted (pixel r o_x o_y rows cols) entries row col with
    | Some b => cell_value b
    | None => cell img0 row col
    end.
Proof.
  intros Hr. induction entries as [|[p b] rest IH]; intros img0 img Hs Hrun;
    cbn [for_each last_painted In] in *.
  - injection Hrun as <-. split; [exact Hs|]. split; [contradiction|reflexivity].
  - apply bind_ok in Hrun as (img1 & Hp & Hrun).
    rewrite paint_pixel in Hp by exact Hr.
    destruct (pixel r o_x o_y rows cols p) as [[pr pc]|] eqn:Epx; [|discriminate].
    injection Hp as <-.
    destruct (pixel_lt _ _ _ _ _ _ _ _ Epx) as [Hpr Hpc].
    destruct (IH _ _ (shape_img_set _ _ _ pr pc (cell_value b) Hs) Hrun)
      as (Hs' & Hin & Hcell).
    split; [exact Hs'|]. split.
    + intros q c [Hq|Hq]; [|now apply (Hin q c)].
      injection Hq as <- <-. congruence.
    + intros row col. rewrite Hcell.
      destruct (last_painted _ rest row col); [reflexivity|].
      rewrite (cell_img_set _ _ _ _ _ _ _ _ Hs Hpr Hpc).
      rewrite (Nat.eqb_sym row pr), (Nat.eqb_sym col pc).
      destruct ((pr =? row) && (pc =? col))%nat; reflexivity.
Qed.

(** The loop over [grid] completes when every entry lands inside the array. *)
Lemma paint_loop_total (r o_x o_y : Z) (rows cols : nat) (entries : dict) :
  r <> 0 ->
  (forall p b, In (p, b) entries -> pixel r o_x o_y rows cols p <> None) ->
  forall img0, exists img,
    for_each entries (paint (Some r) (Some o_x) (Some o_y) rows cols) img0 = Ok img.
Proof.
  intros Hr. induction entries as [|[p b] rest IH]; intros Hin img0;
    cbn [for_each].
  - now exists img0.
  - rewrite paint_pixel by exact Hr.
    destruct (pixel r o_x o_y rows cols p) as [[pr pc]|] eqn:Epx.
    + cbn [bind]. apply IH. intros q c Hq. apply (Hin q c). now right.
    + exfalso. apply (Hin p b); [now left|exact Epx].
Qed.

Lemma last_painted_ext (px px' : point -> option (nat * nat)) (entries : dict)
  (row col : nat) :
  (forall p, px p = px' p) ->
  last_painted px entries row col = last_painted px' entries row col.
Proof.
  intros H. induction entries as [|[p b] rest IH]; simpl; [reflexivity|].
  now rewrite IH, H.
Qed.

Lemma last_painted_some (px : point -> option (nat * nat)) (entries : dict)
  (row col : nat) (b : bool) :
  last_painted px entries row col = Some b ->
  exists p, In (p, b) entries /\ px p = Some (row, col).
Proof.
  induction entries as [|[q c] rest IH]; simpl; [discriminate|].
  destruct (last_painted px rest row col) as [b'|].
  - intros H. destruct (IH H) as (p & Hin & Hp). eauto.
  - destruct (px q) as [[r' c']|] eqn:Eq; [|discriminate].
    destruct (Nat.eqb_spec r' row) as [->|]; [|discriminate].
    destruct (Nat.eqb_spec c' col) as [->|]; [|discriminate].
    simpl. intros H. injection H as ->. eauto.
Qed.

Lemma last_painted_hit (px : point -> option (nat * nat)) (entries : dict)
  (row col : nat) (p : point) (b : bool) :
  In (p, b) entries -> px p = Some (row, col) ->
  last_painted px entries row col <> None.
Proof.
  induction entries as [|[q c] rest IH]; simpl; [contradiction|].
  intros [Hq|Hin] Hp.
  - injection Hq as -> ->. rewrite Hp, !Nat.eqb_refl. simpl.
    destruct (last_painted px rest row col); discriminate.
  - specialize (IH Hin Hp).
    destruct (last_painted px rest row col); [discriminate|contradiction].
Qed.

(** A cell on which only entries of value [b] land, and at least one, ends
    with the value of [b]. *)
Lemma last_painted_uniform (px : point -> option (nat * nat)) (entries : dict)
  (row col : nat) (p : point) (b : bool) :
  In (p, b) entries -> px p = Some (row, col) ->
  (forall q c, In (q, c) entries -> px q = Some (row, col) -> c = b) ->
  last_painted px entries row col = Some b.
Proof.
  intros Hin Hp Hall.
  destruct (last_painted px entries row col) as [b'|] eqn:E.
  - apply last_painted_some in E as (q & Hq & Hpq). f_equal. eauto.
  - exfalso. revert E. now apply last_painted_hit with p b.
Qed.

Lemma last_painted_none (px : point -> option (nat * nat)) (entries : dict)
  (row col : nat) :
  (forall q c, In (q, c) entries -> px q <> Some (row, col)) ->
  last_painted px entries row col = None.
Proof.
  intros Hall.
  destruct (last_painted px entries row col) as [b|] eqn:E; [|reflexivity].
  apply last_painted_some in E as (q & Hq & Hpq). now apply Hall in Hq.
Qed.

Lemma round_quot_ok (a res : option Z) (n : Z) :
  round_quot a res = Ok n ->
  exists r v, res = Some r /\ r <> 0 /\ a = Some v /\ n = round_div v r.
Proof.
  unfold round_quot. destruct res as [r|]; [|discriminate].
  destruct (Z.eqb_spec r 0); [discriminate|].
  destruct a as [v|]; [|discriminate].
  intros H; injection H as <-. eauto 6.
Qed.

Lemma extent_some (mx mn : option Z) (v : Z) :
  extent mx mn = Some v -> exists a b, mx = Some a /\ mn = Some b /\ v = Z.abs (a - b).
Proof.
  destruct mx as [a|], mn as [b|]; simpl; try discriminate.
  intros H; injection H as <-. eauto.
Qed.

Lemma cell_full_any (rows cols row col : nat) :
  cell (repeat (repeat (-1) cols) rows) row col = -1.
Proof.
  unfold cell.
  destruct (Nat.lt_ge_cases row rows) as [Hr|Hr].
  - rewrite (nth_repeat_lt _ _ Hr).
    destruct (Nat.lt_ge_cases col cols) as [Hc|Hc].
    + now apply nth_repeat_lt.
    + apply nth_overflow. now rewrite repeat_length.
  - rewrite (nth_overflow (repeat (repeat (-1) cols) rows) [])
      by now rewrite repeat_length.
    now destruct col.
Qed.

(** What [rasterize] returns: an array sized from the bounds and the
    resolution, on which every entry of [grid] landed, where each cell
    holds the value of the last entry that landed on it and -1 where none
    did. *)
Lemma rasterize_ok (st : state) (img : list (list Z)) :
  rasterize st = Ok img ->
  (exists r o_x m_x o_y m_y,
     resolution st = Some r /\ r <> 0 /\
     min_x st = Some o_x /\ max_x st = Some m_x /\
     min_y st = Some o_y /\ max_y st = Some m_y /\
     shape img (axis_cells r o_y m_y) (axis_cells r o_x m_x)) /\
  (forall p b, In (p, b) (grid st) -> out_pixel st p <> None) /\
  forall row col,
    cell img row col =
    match last_painted (out_pixel st) (grid st) row col with
    | Some b => cell_value b
    | None => -1
    end.
Proof.
  unfold rasterize. intros H.
  apply bind_ok in H as (h & Hh & H). apply bind_ok in H as (w & Hw & H).
  apply bind_ok in H as (img0 & Hfull & H).
  apply round_quot_ok in Hh as (r & vh & Hres & Hr & Hh & ->).
  apply round_quot_ok in Hw as (r' & vw & Hres' & _ & Hw & ->).
  assert (r' = r) by congruence. subst r'.
  apply extent_some in Hh as (m_y & o_y & Hmy & Hoy & ->).
  apply extent_some in Hw as (m_x & o_x & Hmx & Hox & ->).
  unfold full in Hfull.
  destruct (_ || _) in Hfull; [discriminate|]. injection Hfull as <-.
  rewrite Hres, Hox, Hoy in H.
  fold (axis_cells r o_y m_y) (axis_cells r o_x m_x) in H.
  assert (Hpx : forall p, out_pixel st p =
            pixel r o_x o_y (axis_cells r o_y m_y) (axis_cells r o_x m_x) p).
  { intros p. unfold out_pixel. now rewrite Hres, Hox, Hmx, Hoy, Hmy. }
  destruct (paint_loop r o_x o_y _ _ (grid st) Hr _ _ (shape_full _ _ (-1)) H)
    as (Hs & Hin & Hcell).
  split; [exists r, o_x, m_x, o_y, m_y; auto 10|]. split.
  - intros p b Hp. rewrite Hpx. now apply (Hin p b).
  - intros row col. rewrite Hcell, (last_painted_ext _ _ _ _ _ Hpx).
    now rewrite cell_full_any.
Qed.

(** [rasterize] returns when the resolution is positive, the bounds are
    finite and every entry of [grid] lands inside the array. *)
Lemma rasterize_total (st : state) (r o_x m_x o_y m_y : Z) :
  resolution st = Some r -> 0 < r ->
  min_x st = Some o_x -> max_x st = Some m_x ->
  min_y st = Some o_y -> max_y st = Some m_y ->
  (forall p b, In (p, b) (grid st) -> out_pixel st p <> None) ->
  exists img, rasterize st = Ok img.
Proof.
  intros Hres Hr Hox Hmx Hoy Hmy Hin.
  assert (Hr0 : r <> 0) by lia.
  assert (Hpos : forall a, 0 <= round_div (Z.abs a) r + 1).
  { intros a. unfold round_div.
    pose proof (Z.abs_nonneg a) as Ha.
    pose proof (Z.div_pos (Z.abs a) r Ha Hr) as Hq.
    destruct (2 * Z.abs (Z.abs a mod r) ?= Z.abs r); [destruct (Z.even _)| |]; lia. }
  unfold rasterize, round_quot. rewrite Hres, Hox, Hmx, Hoy, Hmy. simpl.
  apply Z.eqb_neq in Hr0 as Hr0'. rewrite Hr0'. simpl.
  unfold full.
  destruct (Z.ltb_spec (round_div (Z.abs (m_y - o_y)) r + 1) 0) as [Hn|_];
    [specialize (Hpos (m_y - o_y)); lia|].
  destruct (Z.ltb_spec (round_div (Z.abs (m_x - o_x)) r + 1) 0) as [Hn|_];
    [specialize (Hpos (m_x - o_x)); lia|].
  simpl. fold (axis_cells r o_y m_y) (axis_cells r o_x m_x).
  apply paint_loop_total; [exact Hr0|].
  intros p b Hp. specialize (Hin p b Hp). unfold out_pixel in Hin.
  now rewrite Hres, Hox, Hmx, Hoy, Hmy in Hin.
Qed.

(** ** The scan: what is recorded *)

Lemma visit_unknown threshold r ox oy i j st :
  visit threshold r ox oy i j (-1) st = st.
Proof. reflexivity. Qed.

Lemma visit_known threshold r ox oy i j v st :
  v <> -1 ->
  visit threshold r ox oy i j v st =
  let p := world r ox oy i j in
  {| grid := record_cell threshold v p (grid st);
     min_x := fst (track (fst p) (min_x st) (max_x st));
     min_y := fst (track (snd p) (min_y st) (max_y st));
     max_x := snd (track (fst p) (min_x st) (max_x st));
     max_y := snd (track (snd p) (min_y st) (max_y st));
     resolution := resolution st |}.
Proof.
  intros Hv. unfold visit. apply Z.eqb_neq in Hv. rewrite Hv. cbv zeta.
  destruct (track _ (min_x st) (max_x st)), (track _ (min_y st) (max_y st)).
  reflexivity.
Qed.

Section ScanMaps.
Variables (data : list (list Z)) (ress : list Z) (origins : list (Z * Z))
          (sizes : list (nat * nat)) (threshold : Z).
Variable P : state -> Prop.

Hypothesis P_bind : forall r st, P st -> P (bind_resolution r st).
Hypothesis P_visit : forall k r ox oy i j v st,
  cell_of data ress origins sizes k r ox oy i j v ->
  P st -> P (visit threshold r ox oy i j v st).

Lemma source_body_invariant (k : nat) (st st' : state) :
  source_body data ress origins sizes threshold k st = Ok st' ->
  P st -> P st'.
Proof.
  intros Hbody Hst.
  apply source_body_ok in Hbody
    as (occupancy & r & ox & oy & height & width & H1 & H2 & H3 & H4 & Hscan).
  apply (scan_source_invariant P) in Hscan; [exact Hscan| |now apply P_bind].
  intros i j v s Hi Hj Hv Hs.
  destruct (Z.eq_dec v (-1)) as [->|Hne]; [now rewrite visit_unknown|].
  apply (P_visit k); [|exact Hs].
  exists occupancy, height, width. auto 10.
Qed.

(** A property that binding the resolution and visiting a cell of the
    input both keep is kept by the whole scan. *)
Lemma scan_maps_invariant (st : state) :
  scan_maps data ress origins sizes threshold = Ok st -> P initial -> P st.
Proof.
  unfold scan_maps. apply for_each_invariant.
  intros k s s' _. apply source_body_invariant.
Qed.

(** A property that the visit of one cell of the input establishes, and
    that the scan then keeps, holds when the scan ends. *)
Lemma scan_maps_reaches (k : nat) (r ox oy : Z) (i j : nat) (v : Z) (st : state) :
  cell_of data ress origins sizes k r ox oy i j v ->
  (forall s, P (visit threshold r ox oy i j v s)) ->
  scan_maps data ress origins sizes threshold = Ok st -> P st.
Proof.
  intros (occupancy & height & width & H1 & H2 & H3 & H4 & Hi & Hj & Hv & Hne) Hhit.
  unfold scan_maps.
  apply for_each_reaches with (x := k).
  - apply in_range. apply nth_error_Some. congruence.
  - intros s s' Hbody.
    apply source_body_ok in Hbody
      as (occ' & r' & ox' & oy' & h' & w' & E1 & E2 & E3 & E4 & Hscan).
    rewrite H1 in E1. rewrite H2 in E2. rewrite H3 in E3. rewrite H4 in E4.
    injection E1 as <-. injection E2 as <-. injection E3 as <- <-.
    injection E4 as <- <-.
    revert Hscan. unfold scan_source.
    apply for_each_reaches with (x := i); [now apply in_range| |].
    + intros t t'. apply for_each_reaches with (x := j); [now apply in_range| |].
      * intros u u' Hu. apply bind_ok in Hu as (v' & Hv' & Hu).
        apply subscript_ok in Hv'. rewrite Hv in Hv'. injection Hv' as <-.
        injection Hu as <-. apply Hhit.
      * intros j' u u' Hj' Hu Hpu. apply bind_ok in Hu as (v' & Hv' & Hu).
        injection Hu as <-. apply subscript_ok in Hv'. apply in_range in Hj'.
        destruct (Z.eq_dec v' (-1)) as [->|Hne']; [now rewrite visit_unknown|].
        apply (P_visit k); [|exact Hpu].
        exists occupancy, height, width. auto 10.
    + intros i' t t' Hi'. apply in_range in Hi'.
      apply for_each_invariant.
      intros j' u u' Hj' Hu Hpu. apply bind_ok in Hu as (v' & Hv' & Hu).
      injection Hu as <-. apply subscript_ok in Hv'. apply in_range in Hj'.
      destruct (Z.eq_dec v' (-1)) as [->|Hne']; [now rewrite visit_unknown|].
      apply (P_visit k); [|exact Hpu].
      exists occupancy, height, width. auto 10.
  - intros k' s s' _. apply source_body_invariant.
Qed.
End ScanMaps.

Lemma dict_get_in (q : point) (b : bool) (d : dict) :
  dict_get q d = Some b -> In (q, b) d.
Proof.
  induction d as [|[k c] d IH]; simpl; [discriminate|].
  destruct (point_eqb q k) eqn:E.
  - apply point_eqb_eq in E as ->. intros H; injection H as ->. now left.
  - intros H. right. now apply IH.
Qed.

Lemma dict_get_none (q : point) (d : dict) :
  dict_get q d = None <-> ~ In q (map fst d).
Proof.
  induction d as [|[k c] d IH]; simpl; [tauto|].
  destruct (point_eqb q k) eqn:E.
  - apply point_eqb_eq in E as ->. split; [discriminate|]. intros H. exfalso. auto.
  - apply point_eqb_neq in E. rewrite IH. split.
    + intros H [Hk|Hin]; [congruence|contradiction].
    + intros H Hin. apply H. now right.
Qed.

Lemma in_dict_get (q : point) (b : bool) (d : dict) :
  NoDup (map fst d) -> In (q, b) d -> dict_get q d = Some b.
Proof.
  induction d as [|[k c] d IH]; simpl; [contradiction|].
  intros Hnd [Hq|Hin]; inversion Hnd as [|? ? Hk Hnd']; subst.
  - injection Hq as -> ->. now rewrite point_eqb_refl.
  - destruct (point_eqb q k) eqn:E; [|now apply IH].
    apply point_eqb_eq in E as ->. exfalso. apply Hk.
    now apply (in_map fst) in Hin.
Qed.

Lemma dict_set_keys (p : point) (b : bool) (d : dict) :
  map fst (dict_set p b d) =
  if dict_mem p d then map fst d else map fst d ++ [p].
Proof.
  unfold dict_mem. induction d as [|[k c] d IH]; simpl; [reflexivity|].
  destruct (point_eqb p k) eqn:E; simpl; [reflexivity|].
  rewrite IH. now destruct (dict_get p d).
Qed.

Lemma dict_set_in (p q : point) (b c : bool) (d : dict) :
  In (q, c) (dict_set p b d) -> (q = p /\ c = b) \/ In (q, c) d.
Proof.
  induction d as [|[k e] d IH]; simpl.
  - intros [H|[]]. injection H as <- <-. auto.
  - destruct (point_eqb p k) eqn:E; simpl.
    + apply point_eqb_eq in E as ->.
      intros [H|H]; [injection H as <- <-; auto|auto].
    + intros [H|H]; [auto|]. destruct (IH H); auto.
Qed.

Lemma record_cell_in (threshold v : Z) (p q : point) (c : bool) (d : dict) :
  In (q, c) (record_cell threshold v p d) -> q = p \/ In (q, c) d.
Proof.
  unfold record_cell.
  destruct (threshold <? v); [intros H; apply dict_set_in in H; tauto|].
  destruct (dict_mem p d); [auto|]. intros H; apply dict_set_in in H; tauto.
Qed.

Lemma record_cell_nodup (threshold v : Z) (p : point) (d : dict) :
  NoDup (map fst d) -> NoDup (map fst (record_cell threshold v p d)).
Proof.
  intros Hnd.
  assert (Hset : forall b, NoDup (map fst (dict_set p b d))).
  { intros b. rewrite dict_set_keys. unfold dict_mem.
    destruct (dict_get p d) eqn:E; [exact Hnd|].
    apply dict_get_none in E.
    apply NoDup_app; [exact Hnd|repeat constructor; auto|].
    intros a Ha [<-|[]]. contradiction. }
  unfold record_cell. destruct (threshold <? v); [apply Hset|].
  destruct (dict_mem p d); [exact Hnd|apply Hset].
Qed.

Lemma track_min_hit (x : Z) (mn mx : option Z) :
  le_min (fst (track x mn mx)) x.
Proof.
  unfold track. destruct mn as [m|]; simpl; [|lia].
  destruct (Z.ltb_spec x m); simpl; [lia|].
  destruct (above x mx); simpl; lia.
Qed.

Lemma track_min_mono (x z : Z) (mn mx : option Z) :
  le_min mn z -> le_min (fst (track x mn mx)) z.
Proof.
  unfold track. destruct mn as [m|]; simpl; [|contradiction].
  intros H. destruct (Z.ltb_spec x m); simpl; [lia|].
  destruct (above x mx); simpl; lia.
Qed.

Section Recorded.
Variables (data : list (list Z)) (ress : list Z) (origins : list (Z * Z))
          (sizes : list (nat * nat)) (threshold : Z) (st : state).
Hypothesis Hscan : scan_maps data ress origins sizes threshold = Ok st.

(** A coordinate where some source reports an obstacle is recorded as an
    obstacle, whatever the other sources report there and in whatever
    order. *)
Lemma scan_records_obstacle (p : point) (v : Z) :
  observes data ress origins sizes p v -> threshold < v ->
  dict_get p (grid st) = Some true.
Proof.
  intros (k & r & ox & oy & i & j & Hcell & <-) Hv.
  assert (Hne : v <> -1) by (destruct Hcell as (? & ? & ? & H); tauto).
  refine (scan_maps_reaches data ress origins sizes threshold
            (fun s => dict_get (world r ox oy i j) (grid s) = Some true)
            _ _ k r ox oy i j v st Hcell _ Hscan); [auto| |].
  - intros k' r' ox' oy' i' j' v' s Hc' Hs.
    assert (Hne' : v' <> -1) by (destruct Hc' as (? & ? & ? & H); tauto).
    rewrite visit_known by exact Hne'. simpl grid.
    rewrite dict_get_record_cell.
    destruct (point_eqb _ _) eqn:E; [|exact Hs].
    apply point_eqb_eq in E. rewrite <- E, Hs. now destruct (threshold <? v').
  - intros s. rewrite visit_known by exact Hne. simpl grid.
    rewrite dict_get_record_cell, point_eqb_refl.
    apply Z.ltb_lt in Hv. now rewrite Hv.
Qed.

(** A coordinate where sources report free cells and no source reports an
    obstacle is recorded as free. *)
Lemma scan_records_free (p : point) (v : Z) :
  observes data ress origins sizes p v ->
  (forall v', observes data ress origins sizes p v' -> v' <= threshold) ->
  dict_get p (grid st) = Some false.
Proof.
  intros Hobs Hfree.
  assert (Hnot : dict_get p (grid st) <> Some true).
  { refine (scan_maps_invariant data ress origins sizes threshold
              (fun s => dict_get p (grid s) <> Some true) _ _ st Hscan _);
      [auto| |discriminate].
    intros k' r' ox' oy' i' j' v' s Hc' Hs.
    assert (Hne' : v' <> -1) by (destruct Hc' as (? & ? & ? & H); tauto).
    rewrite visit_known by exact Hne'. simpl grid.
    rewrite dict_get_record_cell.
    destruct (point_eqb _ _) eqn:E; [|exact Hs].
    apply point_eqb_eq in E.
    assert (Hle : v' <= threshold).
    { apply Hfree. exists k', r', ox', oy', i', j'. auto. }
    apply Z.ltb_ge in Hle. rewrite Hle. rewrite <- E.
    destruct (dict_get p (grid s)) as [[|]|]; congruence. }
  assert (Hsome : dict_get p (grid st) <> None).
  { destruct Hobs as (k & r & ox & oy & i & j & Hcell & <-).
    assert (Hne : v <> -1) by (destruct Hcell as (? & ? & ? & H); tauto).
    refine (scan_maps_reaches data ress origins sizes threshold
              (fun s => dict_get (world r ox oy i j) (grid s) <> None)
              _ _ k r ox oy i j v st Hcell _ Hscan); [auto| |].
    - intros k' r' ox' oy' i' j' v' s Hc' Hs.
      assert (Hne' : v' <> -1) by (destruct Hc' as (? & ? & ? & H); tauto).
      rewrite visit_known by exact Hne'. simpl grid.
      rewrite dict_get_record_cell.
      destruct (point_eqb _ _) eqn:E; [|exact Hs].
      destruct (threshold <? v'); [discriminate|].
      destruct (dict_get (world r' ox' oy' i' j') (grid s)); discriminate.
    - intros s. rewrite visit_known by exact Hne. simpl grid.
      rewrite dict_get_record_cell, point_eqb_refl.
      destruct (threshold <? v); [discriminate|].
      destruct (dict_get _ (grid s)); discriminate. }
  destruct (dict_get p (grid st)) as [[|]|]; congruence.
Qed.

(** Every recorded coordinate is one that some source reports. *)
Lemma scan_keys_observed (q : point) (b : bool) :
  In (q, b) (grid st) -> exists v, observes data ress origins sizes q v.
Proof.
  revert q b.
  refine (scan_maps_invariant data ress origins sizes threshold
            (fun s => forall q b, In (q, b) (grid s) ->
               exists v, observes data ress origins sizes q v) _ _ st Hscan _);
    [auto| |contradiction].
  intros k r ox oy i j v s Hc Hs q b.
  assert (Hne : v <> -1) by (destruct Hc as (? & ? & ? & H); tauto).
  rewrite visit_known by exact Hne. simpl grid.
  intros Hin. apply record_cell_in in Hin as [->|Hin]; [|now apply (Hs q b)].
  exists v, k, r, ox, oy, i, j. auto.
Qed.

(** No coordinate is recorded twice. *)
Lemma scan_keys_nodup : NoDup (map fst (grid st)).
Proof.
  refine (scan_maps_invariant data ress origins sizes threshold
            (fun s => NoDup (map fst (grid s))) _ _ st Hscan _);
    [auto| |constructor].
  intros k r ox oy i j v s Hc Hs.
  assert (Hne : v <> -1) by (destruct Hc as (? & ? & ? & H); tauto).
  rewrite visit_known by exact Hne. simpl grid.
  now apply record_cell_nodup.
Qed.

(** The running minima are finite and below every recorded coordinate. *)
Lemma scan_minima (q : point) (b : bool) :
  In (q, b) (grid st) ->
  le_min (min_x st) (fst q) /\ le_min (min_y st) (snd q).
Proof.
  revert q b.
  refine (scan_maps_invariant data ress origins sizes threshold
            (fun s => forall q b, In (q, b) (grid s) ->
               le_min (min_x s) (fst q) /\ le_min (min_y s) (snd q))
            _ _ st Hscan _);
    [auto| |contradiction].
  intros k r ox oy i j v s Hc Hs q b.
  assert (Hne : v <> -1) by (destruct Hc as (? & ? & ? & H); tauto).
  rewrite visit_known by exact Hne. simpl.
  intros Hin. apply record_cell_in in Hin as [->|Hin].
  - split; apply track_min_hit.
  - destruct (Hs q b Hin). split; now apply track_min_mono.
Qed.
End Recorded.

(** ** Rounded quotients *)

Lemma round_div_mul (k r : Z) : r <> 0 -> round_div (k * r) r = k.
Proof.
  intros Hr. unfold round_div.
  rewrite Z.div_mul, Z.mod_mul by exact Hr.
  change (2 * Z.abs 0) with 0.
  destruct (Z.compare_spec 0 (Z.abs r)) as [H|H|H]; [|reflexivity|]; lia.
Qed.

Lemma round_div_bounds (a r : Z) :
  0 < r -> a / r <= round_div a r <= a / r + 1.
Proof.
  intros Hr. unfold round_div.
  destruct (2 * Z.abs (a mod r) ?= Z.abs r); [destruct (Z.even (a / r))| |]; lia.
Qed.

Lemma round_div_nonneg (a r : Z) : 0 < r -> 0 <= a -> 0 <= round_div a r.
Proof.
  intros Hr Ha. pose proof (round_div_bounds a r Hr).
  pose proof (Z.div_pos a r Ha Hr). lia.
Qed.

Lemma round_div_mono (a b r : Z) :
  0 < r -> a <= b -> round_div a r <= round_div b r.
Proof.
  intros Hr Hab.
  pose proof (Z.div_le_mono a b r Hr Hab) as Hq.
  destruct (Z.eq_dec (a / r) (b / r)) as [Heq|Hne].
  - pose proof (Z.mod_pos_bound a r Hr) as Ha.
    pose proof (Z.mod_pos_bound b r Hr) as Hb.
    assert (Hmod : a mod r <= b mod r).
    { rewrite !Z.mod_eq by lia. rewrite Heq. lia. }
    unfold round_div. rewrite Heq.
    rewrite (Z.abs_eq r), (Z.abs_eq (a mod r)), (Z.abs_eq (b mod r)) by lia.
    destruct (Z.compare_spec (2 * (a mod r)) r), (Z.compare_spec (2 * (b mod r)) r);
      try destruct (Z.even (b / r)); lia.
  - pose proof (round_div_bounds a r Hr). pose proof (round_div_bounds b r Hr). lia.
Qed.

(** ** Precedence between observations of one coordinate *)

Lemma recorded_value_merged data ress origins sizes threshold p b :
  (forall st, scan_maps data ress origins sizes threshold = Ok st ->
     dict_get p (grid st) = Some b) ->
  merged_value data ress origins sizes threshold p b.
Proof.
  intros Hrec. split; [exact Hrec|].
  intros img Hmerge. unfold merge_maps in Hmerge.
  apply bind_ok in Hmerge as (st & Hscan & Hras).
  apply rasterize_ok in Hras as (_ & Hland & Hcell).
  pose proof (dict_get_in _ _ _ (Hrec st Hscan)) as Hin.
  destruct (out_pixel st p) as [[row col]|] eqn:Epx;
    [|now apply Hland in Hin].
  exists st, row, col. split; [exact Hscan|]. split; [exact Epx|].
  intros Halone. rewrite Hcell.
  rewrite (last_painted_uniform (out_pixel st) (grid st) row col p b Hin Epx);
    [reflexivity|].
  intros q c Hq Hpq. destruct (Bool.bool_dec c b) as [|Hne]; [assumption|].
  exfalso. apply (Halone q); [|exact Hpq].
  replace (negb b) with c; [exact Hq|]. destruct b, c; simpl; congruence.
Qed.

(** C1.  Obstacle precedence: when two sources report the same world
    coordinate, one with a value above the threshold and the other with a
    value at most the threshold (neither -1), the coordinate is recorded as
    an obstacle whichever source comes first ([k1] and [k2] are in no
    order); when [merge_maps] returns, the output cell on which the
    coordinate lands holds 100 as long as no coordinate recorded as free
    lands on that same cell. *)
Theorem obstacle_precedence
  (data : list (list Z)) (ress : list Z) (origins : list (Z * Z))
  (sizes : list (nat * nat)) (threshold : Z)
  (k1 : nat) (r1 ox1 oy1 : Z) (i1 j1 : nat) (v1 : Z)
  (k2 : nat) (r2 ox2 oy2 : Z) (i2 j2 : nat) (v2 : Z) :
  cell_of data ress origins sizes k1 r1 ox1 oy1 i1 j1 v1 ->
  cell_of data ress origins sizes k2 r2 ox2 oy2 i2 j2 v2 ->
  world r1 ox1 oy1 i1 j1 = world r2 ox2 oy2 i2 j2 ->
  threshold < v1 -> v2 <= threshold ->
  merged_value data ress origins sizes threshold (world r1 ox1 oy1 i1 j1) true.
Proof.
  intros Hc1 _ _ Hv1 _. apply recorded_value_merged. intros st Hscan.
  apply (scan_records_obstacle data ress origins sizes threshold st Hscan _ v1);
    [|exact Hv1].
  exists k1, r1, ox1, oy1, i1, j1. auto.
Qed.

Lemma world_inj (r ox oy : Z) (i j i' j' : nat) :
  r <> 0 -> world r ox oy i j = world r ox oy i' j' -> i = i' /\ j = j'.
Proof.
  intros Hr H. unfold world in H. injection H as Hx Hy. split; nia.
Qed.

(** With two sources of non-zero resolution that both report a free cell at
    [p], no source reports an obstacle at [p]. *)
Lemma two_sources_free (A B : list Z) (rA rB oxA oyA oxB oyB : Z)
  (hA wA hB wB iA jA iB jB : nat) (vA vB threshold : Z) (p : point) (v : Z) :
  rA <> 0 -> rB <> 0 ->
  nth_error A (iA + jA * wA) = Some vA -> vA <= threshold ->
  nth_error B (iB + jB * wB) = Some vB -> vB <= threshold ->
  world rA oxA oyA iA jA = p -> world rB oxB oyB iB jB = p ->
  observes [A; B] [rA; rB] [(oxA, oyA); (oxB, oyB)] [(hA, wA); (hB, wB)] p v ->
  v <= threshold.
Proof.
  intros HrA HrB HA HvA HB HvB HpA HpB
    (k & r & ox & oy & i & j & (occ & h & w & E1 & E2 & E3 & E4 & _ & _ & Hv & _) & Hp).
  destruct k as [|[|k]]; simpl in E1, E2, E3, E4.
  - injection E1 as <-. injection E2 as <-. injection E3 as <- <-.
    injection E4 as <- <-. rewrite <- HpA in Hp.
    apply world_inj in Hp as [-> ->]; [|exact HrA]. congruence.
  - injection E1 as <-. injection E2 as <-. injection E3 as <- <-.
    injection E4 as <- <-. rewrite <- HpB in Hp.
    apply world_inj in Hp as [-> ->]; [|exact HrB]. congruence.
  - destruct k; discriminate.
Qed.

(** C2.  Free first-writer-wins: a free observation (value at most the
    threshold, not -1) leaves [grid] as it is when its coordinate is already
    recorded, so it never overwrites an obstacle, and records [False] when
    it is not; and for two sources of non-zero resolution that both report
    a free cell at one coordinate, in either order the coordinate is
    recorded as free and, when [merge_maps] returns, the output cell on
    which it lands holds 0 as long as no coordinate recorded as an obstacle
    lands on that same cell. *)
Theorem free_first_writer_wins
  (A B : list Z) (rA rB oxA oyA oxB oyB : Z)
  (hA wA hB wB iA jA iB jB : nat) (vA vB threshold : Z) :
  rA <> 0 -> rB <> 0 ->
  (iA < wA)%nat -> (jA < hA)%nat ->
  nth_error A (iA + jA * wA) = Some vA -> vA <> -1 -> vA <= threshold ->
  (iB < wB)%nat -> (jB < hB)%nat ->
  nth_error B (iB + jB * wB) = Some vB -> vB <> -1 -> vB <= threshold ->
  world rA oxA oyA iA jA = world rB oxB oyB iB jB ->
  let p := world rA oxA oyA iA jA in
  (forall st,
     (dict_mem p (grid st) = true ->
      grid (visit threshold rA oxA oyA iA jA vA st) = grid st) /\
     (dict_mem p (grid st) = false ->
      dict_get p (grid (visit threshold rA oxA oyA iA jA vA st)) = Some false)) /\
  merged_value [A; B] [rA; rB] [(oxA, oyA); (oxB, oyB)] [(hA, wA); (hB, wB)]
    threshold p false /\
  merged_value [B; A] [rB; rA] [(oxB, oyB); (oxA, oyA)] [(hB, wB); (hA, wA)]
    threshold p false.
Proof.
  intros HrA HrB HiA HjA HA HnA HvA HiB HjB HB HnB HvB Hsame p.
  split; [|split].
  - intros st. rewrite visit_known by exact HnA. simpl grid. fold p.
    unfold record_cell. apply Z.ltb_ge in HvA. rewrite HvA.
    split; intros Hmem; rewrite Hmem; [reflexivity|].
    now rewrite dict_get_set, point_eqb_refl.
  - apply recorded_value_merged. intros st Hscan.
    apply (scan_records_free _ _ _ _ _ st Hscan p vA).
    + exists 0%nat, rA, oxA, oyA, iA, jA. split; [|reflexivity].
      exists A, hA, wA. simpl. auto 10.
    + intros v. now apply (two_sources_free A B rA rB oxA oyA oxB oyB
                             hA wA hB wB iA jA iB jB vA vB).
  - apply recorded_value_merged. intros st Hscan.
    apply (scan_records_free _ _ _ _ _ st Hscan p vA).
    + exists 1%nat, rA, oxA, oyA, iA, jA. split; [|reflexivity].
      exists A, hA, wA. simpl. auto 10.
    + intros v. now apply (two_sources_free B A rB rA oxB oyB oxA oyA
                             hB wB hA wA iB jB iA jA vB vA).
Qed.

(** ** The returned array *)

Lemma axis_cells_pos (r lo hi : Z) :
  0 < r -> Z.of_nat (axis_cells r lo hi) = round_div (Z.abs (hi - lo)) r + 1.
Proof.
  intros Hr. unfold axis_cells.
  pose proof (round_div_nonneg (Z.abs (hi - lo)) r Hr (Z.abs_nonneg _)). lia.
Qed.

(** A coordinate inside the bounds lands on the cell found by rounding its
    offsets from [(o_x, o_y)] in units of the resolution. *)
Lemma pixel_inside (r o_x m_x o_y m_y x y : Z) :
  0 < r -> o_x <= x <= m_x -> o_y <= y <= m_y ->
  pixel r o_x o_y (axis_cells r o_y m_y) (axis_cells r o_x m_x) (x, y) =
  Some (Z.to_nat (round_div (y - o_y) r), Z.to_nat (round_div (x - o_x) r)).
Proof.
  intros Hr Hx Hy. unfold pixel. simpl fst. simpl snd.
  assert (Hin : forall lo hi z, lo <= z <= hi ->
            0 <= round_div (z - lo) r < Z.of_nat (axis_cells r lo hi)).
  { intros lo hi z Hz. rewrite axis_cells_pos by exact Hr.
    rewrite Z.abs_eq by lia.
    pose proof (round_div_nonneg (z - lo) r Hr).
    pose proof (round_div_mono (z - lo) (hi - lo) r Hr). lia. }
  rewrite (np_index_in_range _ _ (Hin o_y m_y y Hy)).
  rewrite (np_index_in_range _ _ (Hin o_x m_x x Hx)). reflexivity.
Qed.

(** C4.  Return value: [merge_maps] returns the output array alone,
    without resolution or origin.  For one source or more, a positive
    resolution of the last source and a scan that ends with finite bounds
    above which no recorded coordinate lies, it returns an array of
    [round(|max_y - min_y| / r) + 1] rows and [round(|max_x - min_x| / r) + 1]
    columns, [r] being the resolution of the last source, in which every
    recorded coordinate [(x, y)] is written (as 0 or 100) at row
    [round((y - min_y) / r)], column [round((x - min_x) / r)]: the array is
    laid out from the origin [(min_x, min_y)] at the last resolution. *)
Theorem merge_returns_array
  (data : list (list Z)) (ress : list Z) (origins : list (Z * Z))
  (sizes : list (nat * nat)) (threshold : Z) (st : state)
  (r o_x m_x o_y m_y : Z) :
  scan_maps data ress origins sizes threshold = Ok st ->
  data <> [] ->
  nth_error ress (length data - 1) = Some r -> 0 < r ->
  min_x st = Some o_x -> max_x st = Some m_x ->
  min_y st = Some o_y -> max_y st = Some m_y ->
  (forall x y b, In ((x, y), b) (grid st) -> x <= m_x /\ y <= m_y) ->
  exists img,
    merge_maps data ress origins sizes threshold = Ok img /\
    shape img (axis_cells r o_y m_y) (axis_cells r o_x m_x) /\
    forall x y b, In ((x, y), b) (grid st) ->
      let row := Z.to_nat (round_div (y - o_y) r) in
      let col := Z.to_nat (round_div (x - o_x) r) in
      (row < axis_cells r o_y m_y)%nat /\ (col < axis_cells r o_x m_x)%nat /\
      (cell img row col = 0 \/ cell img row col = 100).
Proof.
  intros Hscan Hne Hlast Hr Hox Hmx Hoy Hmy Hmax.
  destruct (scan_maps_resolution _ _ _ _ _ _ Hscan Hne) as (r' & Hr' & Hres).
  assert (r' = r) by congruence. subst r'.
  assert (Hpx : forall x y b, In ((x, y), b) (grid st) ->
            out_pixel st (x, y) =
            Some (Z.to_nat (round_div (y - o_y) r), Z.to_nat (round_div (x - o_x) r))).
  { intros x y b Hin.
    destruct (scan_minima _ _ _ _ _ _ Hscan _ _ Hin) as [Hlx Hly].
    rewrite Hox in Hlx. rewrite Hoy in Hly. simpl in Hlx, Hly.
    destruct (Hmax x y b Hin).
    unfold out_pixel. rewrite Hres, Hox, Hmx, Hoy, Hmy.
    apply pixel_inside; lia. }
  destruct (rasterize_total st r o_x m_x o_y m_y Hres Hr Hox Hmx Hoy Hmy) as [img Himg].
  { intros [x y] b Hin. rewrite (Hpx x y b Hin). discriminate. }
  exists img. split; [unfold merge_maps; now rewrite Hscan|].
  destruct (rasterize_ok st img Himg)
    as ((r' & ox' & mx' & oy' & my' & E1 & _ & E2 & E3 & E4 & E5 & Hshape) & _ & Hcell).
  assert (r' = r) by congruence. assert (ox' = o_x) by congruence.
  assert (mx' = m_x) by congruence. assert (oy' = o_y) by congruence.
  assert (my' = m_y) by congruence. subst.
  split; [exact Hshape|].
  intros x y b Hin. cbv zeta.
  pose proof (Hpx x y b Hin) as Hp.
  assert (Hlt : out_pixel st (x, y) =
            pixel r o_x o_y (axis_cells r o_y m_y) (axis_cells r o_x m_x) (x, y)).
  { unfold out_pixel. now rewrite Hres, Hox, Hmx, Hoy, Hmy. }
  rewrite Hp in Hlt. symmetry in Hlt. apply pixel_lt in Hlt as [Hrow Hcol].
  split; [exact Hrow|]. split; [exact Hcol|].
  rewrite Hcell.
  pose proof (last_painted_hit (out_pixel st) (grid st) _ _ (x, y) b Hin Hp) as Hhit.
  destruct (last_painted _ _ _ _) as [[|]|]; simpl; auto. contradiction.
Qed.

(** ** One source *)

Lemma chunks_shape {A : Type} (rows width : nat) (l : list A) :
  length l = (rows * width)%nat ->
  length (chunks rows width l) = rows /\
  Forall (fun row => length row = width) (chunks rows width l).
Proof.
  revert l. induction rows as [|rows IH]; intros l Hl; simpl; [auto|].
  destruct (IH (skipn width l)) as [H1 H2].
  { rewrite length_skipn. simpl in Hl. lia. }
  split; [now rewrite H1|]. constructor; [|exact H2].
  rewrite length_firstn. simpl in Hl. lia.
Qed.

Lemma cell_map (f : Z -> Z) (img : list (list Z)) (row col : nat) :
  f (-1) = -1 -> cell (map (map f) img) row col = f (cell img row col).
Proof.
  intros Hf. unfold cell.
  change (@nil Z) with (map f []) at 1. rewrite map_nth.
  rewrite <- Hf at 1. apply map_nth.
Qed.

Lemma shape_map (f : Z -> Z) (img : list (list Z)) (rows cols : nat) :
  shape img rows cols -> shape (map (map f) img) rows cols.
Proof.
  intros [Hlen Hall]. split; [now rewrite length_map|].
  apply Forall_map. revert Hall. apply Forall_impl.
  intros row Hrow. now rewrite length_map.
Qed.

(** Two arrays of one shape that agree on every cell are equal. *)
Lemma shape_ext (a b : list (list Z)) (rows cols : nat) :
  shape a rows cols -> shape b rows cols ->
  (forall row col, (row < rows)%nat -> (col < cols)%nat ->
     cell a row col = cell b row col) ->
  a = b.
Proof.
  intros [Ha Hra] [Hb Hrb] Hcell.
  apply (nth_ext a b [] []); [congruence|].
  intros row Hrow. rewrite Forall_forall in Hra, Hrb.
  assert (Hla : length (nth row a []) = cols) by (apply Hra, nth_In; lia).
  assert (Hlb : length (nth row b []) = cols) by (apply Hrb, nth_In; lia).
  apply (nth_ext _ _ (-1) (-1)); [congruence|].
  intros col Hcol. apply Hcell; lia.
Qed.

Lemma observes_single (occupancy : list Z) (r ox oy : Z) (height width : nat)
  (q : point) (v : Z) :
  observes [occupancy] [r] [(ox, oy)] [(height, width)] q v <->
  exists i j, (i < width)%nat /\ (j < height)%nat /\
    nth_error occupancy (i + j * width) = Some v /\ v <> -1 /\
    q = world r ox oy i j.
Proof.
  split.
  - intros (k & r' & ox' & oy' & i & j &
            (occ & h & w & E1 & E2 & E3 & E4 & Hi & Hj & Hv & Hne) & Hq).
    destruct k as [|k]; [|destruct k; discriminate]. simpl in E1, E2, E3, E4.
    injection E1 as <-. injection E2 as <-. injection E3 as <- <-.
    injection E4 as <- <-. exists i, j. auto 10.
  - intros (i & j & Hi & Hj & Hv & Hne & ->).
    exists 0%nat, r, ox, oy, i, j. split; [|reflexivity].
    exists occupancy, height, width. simpl. auto 10.
Qed.

Section SingleSource.
Variables (occupancy : list Z) (r ox oy : Z) (height width : nat)
          (threshold : Z) (st : state).
Hypothesis Hr : 0 < r.
Hypothesis Hlen : length occupancy = (height * width)%nat.
Hypothesis Hscan :
  scan_maps [occupancy] [r] [(ox, oy)] [(height, width)] threshold = Ok st.

(** What a single source records: the threshold rule at each known cell. *)
Lemma single_source_recorded (i j : nat) (v : Z) :
  (i < width)%nat -> (j < height)%nat ->
  nth_error occupancy (i + j * width) = Some v -> v <> -1 ->
  dict_get (world r ox oy i j) (grid st) = Some (threshold <? v).
Proof.
  intros Hi Hj Hv Hne.
  assert (Hobs : observes [occupancy] [r] [(ox, oy)] [(height, width)]
                   (world r ox oy i j) v).
  { apply observes_single. exists i, j. auto 10. }
  destruct (Z.ltb_spec threshold v) as [Hlt|Hle].
  - now apply (scan_records_obstacle _ _ _ _ _ st Hscan _ v).
  - apply (scan_records_free _ _ _ _ _ st Hscan _ v Hobs).
    intros v' Hobs'. apply observes_single in Hobs'
      as (i' & j' & _ & _ & Hv' & _ & Hw).
    apply world_inj in Hw as [-> ->]; [|lia]. congruence.
Qed.

(** Every recorded coordinate is that of a known cell of the source. *)
Lemma single_source_keys (q : point) (b : bool) :
  In (q, b) (grid st) ->
  exists i j v, (i < width)%nat /\ (j < height)%nat /\
    nth_error occupancy (i + j * width) = Some v /\ v <> -1 /\
    q = world r ox oy i j /\ b = (threshold <? v).
Proof.
  intros Hin.
  destruct (scan_keys_observed _ _ _ _ _ st Hscan q b Hin) as [v Hobs].
  apply observes_single in Hobs as (i & j & Hi & Hj & Hv & Hne & ->).
  exists i, j, v. repeat (split; [assumption|]). split; [reflexivity|].
  pose proof (single_source_recorded i j v Hi Hj Hv Hne) as Hget.
  pose proof (in_dict_get _ _ _ (scan_keys_nodup _ _ _ _ _ st Hscan) Hin) as Hget'.
  congruence.
Qed.

Hypothesis Hox : min_x st = Some ox.
Hypothesis Hoy : min_y st = Some oy.
Hypothesis Hmx : max_x st = Some (ox + (Z.of_nat width - 1) * r).
Hypothesis Hmy : max_y st = Some (oy + (Z.of_nat height - 1) * r).

Lemma single_source_nonempty : (0 < height)%nat /\ (0 < width)%nat.
Proof.
  destruct (Nat.eq_dec (height * width) 0) as [Hz|Hnz]; [|nia].
  exfalso. rewrite Hz in Hlen. apply length_zero_iff_nil in Hlen.
  assert (Hrun : scan_maps [occupancy] [r] [(ox, oy)] [(height, width)] threshold
                 = Ok (bind_resolution r initial)).
  { unfold scan_maps. simpl. unfold source_body. simpl.
    rewrite scan_source_all_unknown; [reflexivity| |].
    - now rewrite Hlen, Hz.
    - rewrite Hlen. constructor. }
  rewrite Hrun in Hscan. injection Hscan as <-. discriminate.
Qed.

Lemma single_source_axes :
  axis_cells r oy (oy + (Z.of_nat height - 1) * r) = height /\
  axis_cells r ox (ox + (Z.of_nat width - 1) * r) = width.
Proof.
  destruct single_source_nonempty as [Hh Hw].
  unfold axis_cells. split.
  - replace (oy + (Z.of_nat height - 1) * r - oy)
      with ((Z.of_nat height - 1) * r) by lia.
    rewrite Z.abs_eq by nia. rewrite round_div_mul by lia. lia.
  - replace (ox + (Z.of_nat width - 1) * r - ox)
      with ((Z.of_nat width - 1) * r) by lia.
    rewrite Z.abs_eq by nia. rewrite round_div_mul by lia. lia.
Qed.

(** Column [i], row [j] of the source lands on row [j], column [i] of the
    output. *)
Lemma single_source_pixel (i j : nat) :
  (i < width)%nat -> (j < height)%nat ->
  out_pixel st (world r ox oy i j) = Some (j, i).
Proof.
  intros Hi Hj.
  destruct (scan_maps_resolution _ _ _ _ _ _ Hscan) as (r' & Hr' & Hres);
    [discriminate|].
  simpl in Hr'. injection Hr' as <-.
  unfold out_pixel. rewrite Hres, Hox, Hmx, Hoy, Hmy.
  unfold world. rewrite pixel_inside by nia.
  replace (Z.of_nat j * r + oy - oy) with (Z.of_nat j * r) by lia.
  replace (Z.of_nat i * r + ox - ox) with (Z.of_nat i * r) by lia.
  rewrite !round_div_mul by lia. now rewrite !Nat2Z.id.
Qed.

(** When the scan ends with the corners of the source's frame for bounds,
    the merged array is the source itself under the threshold rule. *)
Lemma single_source_image :
  merge_maps [occupancy] [r] [(ox, oy)] [(height, width)] threshold =
  Ok (map (map (classify threshold)) (chunks height width occupancy)).
Proof.
  destruct (scan_maps_resolution _ _ _ _ _ _ Hscan) as (r' & Hr' & Hres);
    [discriminate|].
  simpl in Hr'. injection Hr' as <-.
  destruct single_source_axes as [Hrows Hcols].
  assert (Hland : forall q b, In (q, b) (grid st) -> out_pixel st q <> None).
  { intros q b Hin.
    destruct (single_source_keys q b Hin) as (i & j & v & Hi & Hj & _ & _ & -> & _).
    now rewrite single_source_pixel. }
  destruct (rasterize_total st r _ _ _ _ Hres Hr Hox Hmx Hoy Hmy Hland)
    as [img Himg].
  unfold merge_maps. rewrite Hscan. simpl bind. rewrite Himg. f_equal.
  destruct (rasterize_ok st img Himg)
    as ((r' & ox' & mx' & oy' & my' & E1 & _ & E2 & E3 & E4 & E5 & Hshape) & _ & Hcell).
  assert (r' = r) by congruence. assert (ox' = ox) by congruence.
  assert (oy' = oy) by congruence.
  assert (mx' = ox + (Z.of_nat width - 1) * r) by congruence.
  assert (my' = oy + (Z.of_nat height - 1) * r) by congruence.
  subst. rewrite Hrows, Hcols in Hshape.
  apply (shape_ext _ _ height width Hshape).
  { apply shape_map. apply chunks_shape. exact Hlen. }
  intros row col Hrow Hcol.
  rewrite cell_map by reflexivity. rewrite Hcell.
  pose proof (cell_reshape occupancy height width row col Hlen Hrow Hcol) as Hv.
  rewrite Nat.add_comm in Hv.
  set (v := cell (chunks height width occupancy) row col) in *.
  unfold classify. destruct (Z.eqb_spec v (-1)) as [Hunk|Hknown].
  - rewrite last_painted_none; [reflexivity|].
    intros q c Hin Hq.
    destruct (single_source_keys q c Hin)
      as (i & j & v' & Hi & Hj & Hv' & Hne & -> & _).
    rewrite single_source_pixel in Hq by assumption.
    injection Hq as -> ->. congruence.
  - pose proof (single_source_recorded col row v Hcol Hrow Hv Hknown) as Hget.
    rewrite (last_painted_uniform (out_pixel st) (grid st) row col
               (world r ox oy col row) (threshold <? v)).
    + now destruct (threshold <? v).
    + now apply dict_get_in.
    + now apply single_source_pixel.
    + intros q c Hin Hq.
      destruct (single_source_keys q c Hin)
        as (i & j & v' & Hi & Hj & Hv' & Hne & -> & ->).
      rewrite single_source_pixel in Hq by assumption.
      injection Hq as -> ->. congruence.
Qed.
End SingleSource.

(** ** A source whose corner cell is known *)

Section MoreLoops.
Context {X S : Type} (body : X -> S -> result S).

(** [for_each_reaches] under an invariant [I] of the loop. *)
Lemma for_each_reaches_under (I P : S -> Prop) (l : list X) (x : X) :
  In x l ->
  (forall y s s', In y l -> body y s = Ok s' -> I s -> I s') ->
  (forall s s', body x s = Ok s' -> I s -> P s') ->
  (forall y s s', In y l -> body y s = Ok s' -> I s -> P s -> P s') ->
  forall s s', for_each l body s = Ok s' -> I s -> P s'.
Proof.
  induction l as [|y l IH]; simpl; intros Hin HI Hx HP s s' Hrun Hs;
    [contradiction|].
  apply bind_ok in Hrun as (s1 & Hy & Hrun).
  assert (Hs1 : I s1) by (apply (HI y s s1); auto).
  destruct Hin as [->|Hin].
  - assert (Hboth : I s' /\ P s'); [|tauto].
    apply (for_each_invariant body (fun t => I t /\ P t) l) with (s := s1);
      [|exact Hrun|split; [exact Hs1|now apply (Hx s)]].
    intros z t t' Hz Hbody [Ht Hpt]. split.
    + apply (HI z t t'); auto.
    + apply (HP z t t'); auto.
  - apply IH with (s := s1); auto.
    + intros z t t' Hz. apply HI. now right.
    + intros z t t' Hz. apply HP. now right.
Qed.

(** A loop all of whose iterations return returns. *)
Lemma for_each_total (l : list X) :
  (forall x s, In x l -> exists s', body x s = Ok s') ->
  forall s, exists s', for_each l body s = Ok s'.
Proof.
  induction l as [|y l IH]; simpl; intros H s; [now exists s|].
  destruct (H y s (or_introl eq_refl)) as [s1 ->]. simpl.
  apply IH. intros x t Hx. apply H. now right.
Qed.
End MoreLoops.

Lemma scan_source_total threshold occupancy r ox oy height width st :
  (height * width <= length occupancy)%nat ->
  exists st', scan_source threshold occupancy r ox oy height width st = Ok st'.
Proof.
  intros Hlen. unfold scan_source.
  apply for_each_total. intros i s Hi. apply for_each_total. intros j t Hj.
  apply in_range in Hi, Hj. unfold subscript.
  destruct (nth_error occupancy (i + j * width)) as [v|] eqn:E; simpl; [eauto|].
  apply nth_error_None in E. nia.
Qed.

Section CornerSource.
Variables (occupancy : list Z) (r ox oy : Z) (height width : nat)
          (threshold : Z).
Hypothesis Hr : 0 < r.

Local Abbreviation anchor := (anchored r ox oy height width).
Local Abbreviation cover := (covers r ox oy).
Local Abbreviation see := (visit threshold r ox oy).

Lemma track_anchored (x o b : Z) (mx : option Z) :
  o <= x -> x <= b -> max_le mx b ->
  fst (track x (Some o) mx) = Some o /\ max_le (snd (track x (Some o) mx)) b /\
  ge_max (snd (track x (Some o) mx)) x /\
  forall z, ge_max mx z -> ge_max (snd (track x (Some o) mx)) z.
Proof.
  intros Hox Hxb Hmx. unfold track. simpl below.
  destruct (Z.ltb_spec x o) as [|_]; [lia|].
  destruct mx as [m|]; simpl in *.
  - destruct (Z.ltb_spec m x); simpl;
      (split; [reflexivity|]); (split; [lia|]); (split; [lia|]);
      intros z Hz; lia.
  - split; [reflexivity|]. split; [lia|]. split; [lia|].
    intros z Hz. contradiction.
Qed.

Lemma visit_anchored (i j : nat) (v : Z) (st : state) :
  (i < width)%nat -> (j < height)%nat ->
  anchor st -> anchor (see i j v st).
Proof.
  intros Hi Hj (Hmx & Hmy & Hxx & Hxy).
  destruct (Z.eq_dec v (-1)) as [->|Hne];
    [rewrite visit_unknown; repeat split; assumption|].
  rewrite visit_known by exact Hne. unfold anchored. simpl.
  rewrite Hmx, Hmy.
  destruct (track_anchored (Z.of_nat i * r + ox) ox
              (ox + (Z.of_nat width - 1) * r) (max_x st)) as (H1 & H2 & _);
    [nia|nia|exact Hxx|].
  destruct (track_anchored (Z.of_nat j * r + oy) oy
              (oy + (Z.of_nat height - 1) * r) (max_y st)) as (H3 & H4 & _);
    [nia|nia|exact Hxy|].
  auto.
Qed.

Lemma visit_covers_hit (i j : nat) (v : Z) (st : state) :
  (i < width)%nat -> (j < height)%nat -> v <> -1 ->
  anchor st -> cover i j (see i j v st).
Proof.
  intros Hi Hj Hne (Hmx & Hmy & Hxx & Hxy).
  rewrite visit_known by exact Hne. unfold covers. simpl.
  rewrite Hmx, Hmy.
  destruct (track_anchored (Z.of_nat i * r + ox) ox
              (ox + (Z.of_nat width - 1) * r) (max_x st)) as (_ & _ & H1 & _);
    [nia|nia|exact Hxx|].
  destruct (track_anchored (Z.of_nat j * r + oy) oy
              (oy + (Z.of_nat height - 1) * r) (max_y st)) as (_ & _ & H2 & _);
    [nia|nia|exact Hxy|].
  auto.
Qed.

Lemma visit_covers_keep (i j i' j' : nat) (v : Z) (st : state) :
  (i' < width)%nat -> (j' < height)%nat ->
  anchor st -> cover i j st -> cover i j (see i' j' v st).
Proof.
  intros Hi Hj (Hmx & Hmy & Hxx & Hxy) [Hcx Hcy].
  destruct (Z.eq_dec v (-1)) as [->|Hne];
    [rewrite visit_unknown; split; assumption|].
  rewrite visit_known by exact Hne. unfold covers. simpl.
  rewrite Hmx, Hmy.
  destruct (track_anchored (Z.of_nat i' * r + ox) ox
              (ox + (Z.of_nat width - 1) * r) (max_x st)) as (_ & _ & _ & H1);
    [nia|nia|exact Hxx|].
  destruct (track_anchored (Z.of_nat j' * r + oy) oy
              (oy + (Z.of_nat height - 1) * r) (max_y st)) as (_ & _ & _ & H2);
    [nia|nia|exact Hxy|].
  auto.
Qed.

(** The body of the inner loop, and of the outer loop. *)
Local Abbreviation inner i :=
  (fun (j : nat) (st : state) =>
     v <- subscript occupancy (i + j * width)%nat ;; Ok (see i j v st)).
Local Abbreviation outer :=
  (fun (i : nat) (st : state) => for_each (range height) (inner i) st).

Lemma inner_visit (i j : nat) (st st' : state) :
  inner i j st = Ok st' ->
  exists v, nth_error occupancy (i + j * width) = Some v /\ st' = see i j v st.
Proof.
  intros H. apply bind_ok in H as (v & Hv & H). apply subscript_ok in Hv.
  injection H as <-. eauto.
Qed.

Lemma inner_anchored (i j : nat) (st st' : state) :
  (i < width)%nat -> (j < height)%nat ->
  inner i j st = Ok st' -> anchor st -> anchor st'.
Proof.
  intros Hi Hj H Hst. apply inner_visit in H as (v & _ & ->).
  now apply visit_anchored.
Qed.

Lemma inner_covers_keep (c d i j : nat) (st st' : state) :
  (i < width)%nat -> (j < height)%nat ->
  inner i j st = Ok st' -> anchor st -> cover c d st -> cover c d st'.
Proof.
  intros Hi Hj H Hst Hc. apply inner_visit in H as (v & _ & ->).
  now apply visit_covers_keep.
Qed.

Lemma outer_anchored (i : nat) (st st' : state) :
  (i < width)%nat -> outer i st = Ok st' -> anchor st -> anchor st'.
Proof.
  intros Hi. apply for_each_invariant. intros j s s' Hj.
  apply in_range in Hj. now apply inner_anchored.
Qed.

Lemma outer_covers_keep (c d i : nat) (st st' : state) :
  (i < width)%nat ->
  outer i st = Ok st' -> anchor st -> cover c d st -> cover c d st'.
Proof.
  intros Hi Hrun Hst Hc.
  assert (H : anchor st' /\ cover c d st'); [|tauto].
  assert (Hpre : anchor st /\ cover c d st) by tauto.
  revert Hrun Hpre.
  apply (for_each_invariant (inner i) (fun s => anchor s /\ cover c d s)).
  intros j s s' Hj Hbody [Hs Hcs]. apply in_range in Hj. split.
  - now apply (inner_anchored i j s).
  - now apply (inner_covers_keep c d i j s).
Qed.

(** Over a stretch [js] of rows of column [i] that includes row [j], where
    a known cell stands, the loop ends with maxima that cover that cell. *)
Lemma inner_covers (i j : nat) (v : Z) (js : list nat) (st st' : state) :
  (i < width)%nat -> (forall j', In j' js -> (j' < height)%nat) -> In j js ->
  nth_error occupancy (i + j * width) = Some v -> v <> -1 ->
  for_each js (inner i) st = Ok st' -> anchor st -> cover i j st'.
Proof.
  intros Hi Hjs Hj Hv Hne.
  apply (for_each_reaches_under (inner i) anchor (cover i j) js j Hj).
  - intros j' s s' Hj'. apply inner_anchored; auto.
  - intros s s' Hbody Hs. apply inner_visit in Hbody as (v' & Hv' & ->).
    assert (v' = v) by congruence. subst v'.
    apply visit_covers_hit; auto.
  - intros j' s s' Hj' Hbody Hs Hc.
    apply (inner_covers_keep i j i j' s); auto.
Qed.

Hypothesis Hlen : length occupancy = (height * width)%nat.

Variable v0 : Z.
Hypothesis Hcorner : nth_error occupancy 0 = Some v0.
Hypothesis Hknown : v0 <> -1.

Variable st : state.
Hypothesis Hscan :
  scan_maps [occupancy] [r] [(ox, oy)] [(height, width)] threshold = Ok st.

(** With the corner cell known, the scan ends with the origin for minima,
    maxima inside the frame, and maxima that cover every other known cell. *)
Lemma corner_source_scan :
  anchor st /\
  forall i j v, (i < width)%nat -> (j < height)%nat ->
    nth_error occupancy (i + j * width) = Some v -> v <> -1 ->
    (i, j) <> (0, 0)%nat -> cover i j st.
Proof.
  unfold scan_maps in Hscan. simpl in Hscan.
  apply bind_ok in Hscan as (st1 & Hbody & Hret). injection Hret as ->.
  unfold source_body in Hbody. simpl in Hbody. unfold scan_source in Hbody.
  assert (Hpos : (0 < height)%nat /\ (0 < width)%nat).
  { assert (0 < length occupancy)%nat by (apply nth_error_Some; congruence). nia. }
  destruct Hpos as [Hh Hw].
  destruct width as [|w'] eqn:Ew; [lia|]. destruct height as [|h'] eqn:Eh; [lia|].
  rewrite <- Ew, <- Eh in *.
  unfold range in Hbody. rewrite Ew in Hbody at 1. simpl seq in Hbody.
  cbn [for_each] in Hbody. apply bind_ok in Hbody as (s2 & Hcol0 & Hrest).
  rewrite Eh in Hcol0 at 1. simpl seq in Hcol0. cbn [for_each] in Hcol0.
  apply bind_ok in Hcol0 as (s1 & Hfirst & Hcol0).
  apply inner_visit in Hfirst as (v & Hv & ->). cbn [Nat.add Nat.mul] in Hv.
  assert (v = v0) by congruence. subst v.
  set (s1 := see 0 0 v0 (bind_resolution r initial)) in *.
  assert (Hs1 : anchor s1).
  { unfold s1. rewrite visit_known by exact Hknown.
    unfold anchored. simpl. repeat split; try (f_equal; lia). }
  assert (Hs2 : anchor s2).
  { revert Hcol0 Hs1. apply for_each_invariant. intros j s s' Hj.
    apply in_seq in Hj. apply inner_anchored; lia. }
  assert (Hst : anchor st).
  { revert Hrest Hs2. apply for_each_invariant. intros i s s' Hi.
    apply in_seq in Hi. apply outer_anchored. lia. }
  split; [exact Hst|].
  clear Hv. intros i j v Hi Hj Hv Hne Hnot.
  destruct i as [|i].
  - assert (Hj1 : In j (seq 1 h')).
    { apply in_seq. destruct j; [congruence|lia]. }
    assert (Hc2 : cover 0 j s2).
    { assert (Hrows : forall j', In j' (seq 1 h') -> (j' < height)%nat)
        by (intros j' Hj'; apply in_seq in Hj'; lia).
      exact (inner_covers 0 j v (seq 1 h') s1 s2 Hw Hrows Hj1 Hv Hne Hcol0 Hs1). }
    assert (Hboth : anchor st /\ cover 0 j st); [|tauto].
    assert (Hpre : anchor s2 /\ cover 0 j s2) by tauto.
    revert Hrest Hpre.
    apply (for_each_invariant outer (fun s => anchor s /\ cover 0 j s)).
    intros i' s s' Hi' Hrun [Hs Hcs]. apply in_seq in Hi'. split.
    + apply (outer_anchored i' s); auto. lia.
    + apply (outer_covers_keep 0 j i' s); auto. lia.
  - revert Hrest Hs2.
    apply (for_each_reaches_under outer anchor (cover (S i) j) (seq 1 w') (S i)).
    + apply in_seq. lia.
    + intros i' s s' Hi'. apply in_seq in Hi'. apply outer_anchored. lia.
    + intros s s' Hrun Hs.
      assert (Hrows : forall j', In j' (range height) -> (j' < height)%nat)
        by (intros j' Hj'; now apply in_range in Hj').
      assert (Hjr : In j (range height)) by now apply in_range.
      exact (inner_covers (S i) j v (range height) s s' Hi Hrows Hjr Hv Hne Hrun Hs).
    + intros i' s s' Hi' Hrun Hs Hc. apply in_seq in Hi'.
      apply (outer_covers_keep (S i) j i' s); auto. lia.
Qed.

(** A grid of two cells or more whose corner cell is known and whose last
    column and last row each hold a known cell is scanned to the corners of
    its frame. *)
Lemma corner_source_bounds :
  (2 <= height * width)%nat ->
  (exists j v, (j < height)%nat /\
     nth_error occupancy (width - 1 + j * width) = Some v /\ v <> -1) ->
  (exists i v, (i < width)%nat /\
     nth_error occupancy (i + (height - 1) * width) = Some v /\ v <> -1) ->
  min_x st = Some ox /\ min_y st = Some oy /\
  max_x st = Some (ox + (Z.of_nat width - 1) * r) /\
  max_y st = Some (oy + (Z.of_nat height - 1) * r).
Proof.
  intros Htwo (j1 & v1 & Hj1 & Hv1 & Hn1) (i2 & v2 & Hi2 & Hv2 & Hn2).
  destruct corner_source_scan as ((Hmx & Hmy & Hxx & Hxy) & Hcov).
  assert (Hh : (0 < height)%nat) by lia.
  assert (Hw : (0 < width)%nat) by lia.
  assert (Hc1 : ((width - 1)%nat, j1) <> (0, 0)%nat ->
                cover (width - 1)%nat j1 st).
  { apply (Hcov (width - 1)%nat j1 v1); auto. lia. }
  assert (Hc2 : (i2, (height - 1)%nat) <> (0, 0)%nat ->
                cover i2 (height - 1)%nat st).
  { apply (Hcov i2 (height - 1)%nat v2); auto. lia. }
  assert (Hgx : ge_max (max_x st) (ox + (Z.of_nat width - 1) * r)).
  { destruct (Nat.eq_dec width 1) as [Hw1|Hw1].
    - destruct Hc2 as [Hc _]; [intros E; injection E; nia|].
      replace i2 with 0%nat in Hc by lia. rewrite Hw1.
      simpl in Hc. simpl. replace (ox + 0) with ox by lia. exact Hc.
    - destruct Hc1 as [Hc _]; [intros E; injection E; lia|].
      replace (Z.of_nat (width - 1)) with (Z.of_nat width - 1) in Hc by lia.
      replace (ox + (Z.of_nat width - 1) * r)
        with ((Z.of_nat width - 1) * r + ox) by lia. exact Hc. }
  assert (Hgy : ge_max (max_y st) (oy + (Z.of_nat height - 1) * r)).
  { destruct (Nat.eq_dec height 1) as [Hh1|Hh1].
    - destruct Hc1 as [_ Hc]; [intros E; injection E; nia|].
      replace j1 with 0%nat in Hc by lia. rewrite Hh1.
      simpl in Hc. simpl. replace (oy + 0) with oy by lia. exact Hc.
    - destruct Hc2 as [_ Hc]; [intros E; injection E; lia|].
      replace (Z.of_nat (height - 1)) with (Z.of_nat height - 1) in Hc by lia.
      replace (oy + (Z.of_nat height - 1) * r)
        with ((Z.of_nat height - 1) * r + oy) by lia. exact Hc. }
  split; [exact Hmx|]. split; [exact Hmy|].
  destruct (max_x st) as [mx|]; [|contradiction].
  destruct (max_y st) as [my|]; [|contradiction].
  simpl in *. split; f_equal; lia.
Qed.
End CornerSource.

(** X15.  A single grid of positive resolution and two cells or more whose
    corner cell (row 0, column 0) is known and whose last column and last
    row each hold a known cell is merged to an array of its own extent in
    which each value became -1, 100 or 0 by the threshold rule. *)
Lemma corner_source_merge (occupancy : list Z) (r ox oy : Z)
  (height width : nat) (threshold v0 : Z) :
  0 < r ->
  length occupancy = (height * width)%nat ->
  (2 <= height * width)%nat ->
  nth_error occupancy 0 = Some v0 -> v0 <> -1 ->
  (exists j v, (j < height)%nat /\
     nth_error occupancy (width - 1 + j * width) = Some v /\ v <> -1) ->
  (exists i v, (i < width)%nat /\
     nth_error occupancy (i + (height - 1) * width) = Some v /\ v <> -1) ->
  merge_maps [occupancy] [r] [(ox, oy)] [(height, width)] threshold =
  Ok (map (map (classify threshold)) (chunks height width occupancy)).
Proof.
  intros Hr Hlen Htwo Hcorner Hknown Hcol Hrow.
  destruct (scan_source_total threshold occupancy r ox oy height width
              (bind_resolution r initial)) as [st Hst]; [lia|].
  assert (Hscan : scan_maps [occupancy] [r] [(ox, oy)] [(height, width)] threshold
                  = Ok st).
  { unfold scan_maps. simpl. unfold source_body. simpl. now rewrite Hst. }
  destruct (corner_source_bounds occupancy r ox oy height width threshold Hr
              Hlen v0 Hcorner Hknown st Hscan Htwo Hcol Hrow)
    as (Hmx & Hmy & Hxx & Hxy).
  now apply single_source_image with st.
Qed.

(** C5.  Single source, threshold 70: for a grid of positive resolution
    whose scan ends with the corners of the grid's own frame for bounds
    (the origin for the minima, the origin plus size minus one cells for the
    maxima), [merge_maps] returns an array of the same extent in which each
    value [v] became -1 if [v = -1], 100 if [v > 70] and 0 otherwise. *)
Theorem single_source_merge
  (occupancy : list Z) (r ox oy : Z) (height width : nat) (st : state) :
  0 < r ->
  length occupancy = (height * width)%nat ->
  scan_maps [occupancy] [r] [(ox, oy)] [(height, width)] 70 = Ok st ->
  min_x st = Some ox -> min_y st = Some oy ->
  max_x st = Some (ox + (Z.of_nat width - 1) * r) ->
  max_y st = Some (oy + (Z.of_nat height - 1) * r) ->
  merge_maps [occupancy] [r] [(ox, oy)] [(height, width)] 70 =
  Ok (map (map (classify 70)) (chunks height width occupancy)).
Proof. intros. now apply single_source_image with st. Qed.

(** ** Concrete runs *)

(** Two sources report world (0, 0), the first 90 and the second 10, and the
    merged array is [[0]]: the free coordinate (1, 0) of the first source
    lands on the same output cell at the resolution 10 of the last source and
    is written after (0, 0).  In the other order the cell holds 100. *)
Lemma obstacle_precedence_counterexample :
  let data := [[90; 10]; [10]] in
  let ress := [1; 10] in
  let origins := [(0, 0); (0, 0)] in
  let sizes := [(1, 2); (1, 1)]%nat in
  cell_of data ress origins sizes 0 1 0 0 0 0 90 /\
  cell_of data ress origins sizes 1 10 0 0 0 0 10 /\
  world 1 0 0 0 0 = world 10 0 0 0 0 /\
  70 < 90 /\ 10 <= 70 /\
  merge_maps data ress origins sizes 70 = Ok [[0]] /\
  merge_maps [[10]; [90; 10]] [10; 1] origins [(1, 1); (1, 2)]%nat 70
    = Ok [[100; 0]].
Proof.
  cbv zeta. split; [|split; [|repeat split; (reflexivity || lia)]].
  - exists [90; 10], 1%nat, 2%nat. repeat split; (reflexivity || lia).
  - exists [10], 1%nat, 1%nat. repeat split; (reflexivity || lia).
Qed.

(** Two sources report a free cell at world (0, 0); merged in one order the
    output cell of (0, 0) holds 100, in the other order it holds 0. *)
Lemma free_first_writer_counterexample :
  nth_error [10; 90] 0 = Some 10 /\ nth_error [10] 0 = Some 10 /\
  world 1 0 0 0 0 = world 10 0 0 0 0 /\ 10 <= 70 /\
  merge_maps [[10; 90]; [10]] [1; 10] [(0, 0); (0, 0)] [(1, 2); (1, 1)]%nat 70
    = Ok [[100]] /\
  merge_maps [[10]; [10; 90]] [10; 1] [(0, 0); (0, 0)] [(1, 1); (1, 2)]%nat 70
    = Ok [[0; 100]].
Proof. repeat split; (reflexivity || lia). Qed.

(** Two calls that differ in resolution and in origin return the same
    value: the array alone, which carries neither. *)
Lemma merge_return_value_counterexample :
  merge_maps [[0; 0]] [1] [(0, 0)] [(1, 2)%nat] 70 = Ok [[0; 0]] /\
  merge_maps [[0; 0]] [2] [(5, 7)] [(1, 2)%nat] 70 = Ok [[0; 0]].
Proof. split; reflexivity. Qed.

(** A 1x3 grid whose first cell is unknown merges to a 1x2 array: the
    output starts at the first known cell, not at the origin of the grid. *)
Lemma single_source_counterexample :
  merge_maps [[-1; 0; 0]] [1] [(0, 0)] [(1, 3)%nat] 70 = Ok [[0; 0]] /\
  map (map (classify 70)) (chunks 1 3 [-1; 0; 0]) = [[-1; 0; 0]].
Proof. split; reflexivity. Qed.

(** One grid with two resolutions, two origins and two sizes: the lists
    differ in length and a result is returned. *)
Lemma merge_arity_counterexample :
  merge_maps [[0; 0]] [1; 1] [(0, 0); (0, 0)] [(1, 2); (1, 2)]%nat 70
    = Ok [[0; 0]].
Proof. reflexivity. Qed.

(** The first of two sources has resolution 0 and a result is returned. *)
Lemma merge_zero_resolution_counterexample :
  merge_maps [[0; 0]; [0; 0]] [0; 1] [(0, 0); (0, 0)] [(1, 2); (1, 2)]%nat 70
    = Ok [[0; 0]].
Proof. reflexivity. Qed.

Lemma obstacle_precedence_witness :
  merge_maps [[90]; [10]] [1; 1] [(0, 0); (0, 0)] [(1, 1); (1, 1)]%nat 70
    = Ok [[100]] /\
  merged_value [[90]; [10]] [1; 1] [(0, 0); (0, 0)] [(1, 1); (1, 1)]%nat 70
    (world 1 0 0 0 0) true.
Proof.
  split; [reflexivity|].
  apply (obstacle_precedence [[90]; [10]] [1; 1] [(0, 0); (0, 0)]
           [(1, 1); (1, 1)]%nat 70 0 1 0 0 0 0 90 1 1 0 0 0 0 10).
  - exists [90], 1%nat, 1%nat. repeat split; (reflexivity || lia).
  - exists [10], 1%nat, 1%nat. repeat split; (reflexivity || lia).
  - reflexivity.
  - lia.
  - lia.
Defined.

Lemma free_first_writer_wins_witness :
  let p := world 1 0 0 0 0 in
  merge_maps [[10]; [20]] [1; 1] [(0, 0); (0, 0)] [(1, 1); (1, 1)]%nat 70
    = Ok [[0]] /\
  merge_maps [[20]; [10]] [1; 1] [(0, 0); (0, 0)] [(1, 1); (1, 1)]%nat 70
    = Ok [[0]] /\
  (forall st,
     (dict_mem p (grid st) = true ->
      grid (visit 70 1 0 0 0 0 10 st) = grid st) /\
     (dict_mem p (grid st) = false ->
      dict_get p (grid (visit 70 1 0 0 0 0 10 st)) = Some false)) /\
  merged_value [[10]; [20]] [1; 1] [(0, 0); (0, 0)] [(1, 1); (1, 1)]%nat 70 p false /\
  merged_value [[20]; [10]] [1; 1] [(0, 0); (0, 0)] [(1, 1); (1, 1)]%nat 70 p false.
Proof.
  split; [reflexivity|]. split; [reflexivity|].
  apply (free_first_writer_wins [10] [20] 1 1 0 0 0 0 1 1 1 1 0 0 0 0 10 20 70);
    (reflexivity || lia).
Defined.

Lemma merge_returns_array_witness :
  exists img,
    merge_maps [[0; 80]] [1] [(0, 0)] [(1, 2)%nat] 70 = Ok img /\
    shape img (axis_cells 1 0 0) (axis_cells 1 0 1) /\
    forall x y b,
      In ((x, y), b) [((0, 0), false); ((1, 0), true)] ->
      let row := Z.to_nat (round_div (y - 0) 1) in
      let col := Z.to_nat (round_div (x - 0) 1) in
      (row < axis_cells 1 0 0)%nat /\ (col < axis_cells 1 0 1)%nat /\
      (cell img row col = 0 \/ cell img row col = 100).
Proof.
  apply (merge_returns_array [[0; 80]] [1] [(0, 0)] [(1, 2)%nat] 70
           {| grid := [((0, 0), false); ((1, 0), true)];
              min_x := Some 0; min_y := Some 0;
              max_x := Some 1; max_y := Some 0;
              resolution := Some 1 |} 1 0 1 0 0).
  - reflexivity.
  - discriminate.
  - reflexivity.
  - lia.
  - reflexivity.
  - reflexivity.
  - reflexivity.
  - reflexivity.
  - simpl. intros x y b [H|[H|[]]]; injection H as <- <- <-; lia.
Defined.

Lemma single_source_merge_witness :
  merge_maps [[0; 80; -1; 5]] [2] [(3, 4)] [(2, 2)%nat] 70 =
  Ok (map (map (classify 70)) (chunks 2 2 [0; 80; -1; 5])).
Proof.
  apply (single_source_merge [0; 80; -1; 5] 2 3 4 2 2
           {| grid := [((3, 4), false); ((5, 4), true); ((5, 6), false)];
              min_x := Some 3; min_y := Some 4;
              max_x := Some 5; max_y := Some 6;
              resolution := Some 2 |}); (reflexivity || lia).
Defined.

Lemma merge_fails_on_missing_frames_witness :
  merge_maps [] [1] [(0, 0)] [(1, 1)%nat] 70 = Raise UnboundLocalError /\
  merge_maps [[0]; [0]] [1] [(0, 0)] [(1, 1)%nat] 70 = Raise IndexError /\
  merge_maps [[0; 0]] ([1] ++ [0; 5]) ([(0, 0)] ++ [(3, 4)])
    ([(1, 2)%nat] ++ [(7, 7)%nat]) 70 =
  merge_maps [[0; 0]] [1] [(0, 0)] [(1, 2)%nat] 70.
Proof.
  split; [|split].
  - apply (proj1 (merge_fails_on_missing_frames
                    [] [1] [(0, 0)] [(1, 1)%nat] 70)).
    reflexivity.
  - apply (proj1 (proj2 (merge_fails_on_missing_frames
                           [[0]; [0]] [1] [(0, 0)] [(1, 1)%nat] 70))).
    right. left. simpl. lia.
  - apply (proj2 (proj2 (merge_fails_on_missing_frames
                           [[0; 0]] [1] [(0, 0)] [(1, 2)%nat] 70)));
      simpl; lia.
Defined.

Lemma merge_fails_on_zero_last_resolution_witness :
  fails (merge_maps [[0; 0]] [0] [(0, 0)] [(1, 2)%nat] 70) /\
  forall st, scan_maps [[0; 0]] [0] [(0, 0)] [(1, 2)%nat] 70 = Ok st ->
    merge_maps [[0; 0]] [0] [(0, 0)] [(1, 2)%nat] 70 = Raise ZeroDivisionError.
Proof.
  apply (merge_fails_on_zero_last_resolution [[0; 0]] [0] [(0, 0)] [(1, 2)%nat] 70).
  - discriminate.
  - reflexivity.
Defined.

Lemma merge_all_unknown_fails_witness :
  exists st e,
    scan_maps [[-1; -1]] [1] [(0, 0)] [(1, 2)%nat] 70 = Ok st /\
    grid st = [] /\
    min_x st = None /\ max_x st = None /\ min_y st = None /\ max_y st = None /\
    round_quot (extent (max_y st) (min_y st)) (resolution st) = Raise e /\
    (e = ZeroDivisionError \/ e = OverflowError) /\
    merge_maps [[-1; -1]] [1] [(0, 0)] [(1, 2)%nat] 70 = Raise e.
Proof.
  apply (merge_all_unknown_fails [[-1; -1]] [1] [(0, 0)] [(1, 2)%nat] 70).
  - discriminate.
  - reflexivity.
  - reflexivity.
  - constructor; [|constructor]. split; [reflexivity|]. repeat constructor.
Defined.

(** * Further properties *)

(** ** Reshaping and cropping *)

Lemma concat_chunks {A : Type} (rows width : nat) (l : list A) :
  length l = (rows * width)%nat -> concat (chunks rows width l) = l.
Proof.
  revert l. induction rows as [|rows IH]; intros l Hl; simpl.
  - destruct l; [reflexivity|discriminate].
  - rewrite IH; [apply firstn_skipn|].
    rewrite length_skipn. simpl in Hl. lia.
Qed.

(** X1.  Without [crop], [get_map_img] lays a flat sequence of
    [height * width] cells out row by row: the array has [height] rows of
    [width] cells, row [i], column [j] is element [i * width + j], and
    reading the rows one after the other gives the sequence back. *)
Theorem reshape_row_major (cells : list Z) (height width : nat) (padding : Z) :
  length cells = (height * width)%nat ->
  exists img,
    get_map_img cells (height, width) false padding = Ok img /\
    shape img height width /\
    concat img = cells /\
    forall i j, (i < height)%nat -> (j < width)%nat ->
      nth_error cells (i * width + j) = Some (cell img i j).
Proof.
  intros Hlen. exists (chunks height width cells).
  split; [|split; [|split]].
  - unfold get_map_img, reshape. now rewrite Hlen, Nat.eqb_refl.
  - now apply chunks_shape.
  - now apply concat_chunks.
  - intros i j. now apply cell_reshape.
Qed.

(** [get_map_img] returns an array exactly when the sequence has
    [height * width] cells, whatever [crop] and [padding]; otherwise the
    reshape raises [ValueError]. *)
Lemma get_map_img_shape_error (cells : list Z) (height width : nat)
  (crop : bool) (padding : Z) :
  (length cells = (height * width)%nat <->
   exists img, get_map_img cells (height, width) crop padding = Ok img) /\
  (length cells <> (height * width)%nat ->
   get_map_img cells (height, width) crop padding = Raise ValueError).
Proof.
  unfold get_map_img, reshape.
  destruct (Nat.eqb_spec (length cells) (height * width)) as [Heq|Hne]; simpl.
  - split; [|contradiction]. split; [intros _|auto].
    destruct crop; [|eauto].
    destruct (col_bounds _ height width), (row_bounds _ height width). eauto.
  - split; [|reflexivity]. split; [contradiction|]. intros [img H]. discriminate.
Qed.

Lemma slice_bound_nat (n a : nat) : slice_bound n (Z.of_nat a) = Nat.min a n.
Proof.
  unfold slice_bound. destruct (Z.ltb_spec (Z.of_nat a) 0); [lia|].
  now rewrite Nat2Z.id.
Qed.

Lemma slice_nat {A : Type} (a b : nat) (l : list A) :
  slice (Z.of_nat a) (Z.of_nat b) l =
  firstn (Nat.min b (length l) - Nat.min a (length l))
    (skipn (Nat.min a (length l)) l).
Proof. unfold slice. now rewrite !slice_bound_nat. Qed.

(** Element [t] of [l[a:b]] is element [a + t] of [l] while [a + t < b]. *)
Lemma nth_slice {A : Type} (a b t : nat) (l : list A) (d : A) :
  nth t (slice (Z.of_nat a) (Z.of_nat b) l) d =
  if (a + t <? b)%nat then nth (a + t) l d else d.
Proof.
  rewrite slice_nat, nth_firstn, nth_skipn.
  destruct (Nat.ltb_spec t (Nat.min b (length l) - Nat.min a (length l))) as [H1|H1];
    destruct (Nat.ltb_spec (a + t) b) as [H2|H2]; try lia.
  - f_equal. lia.
  - symmetry. apply nth_overflow. lia.
  - reflexivity.
Qed.

Lemma slice_nil {A : Type} (a b : Z) : slice a b (@nil A) = [].
Proof. unfold slice. now rewrite skipn_nil, firstn_nil. Qed.

Lemma cell_slice2 (r0 r1 c0 c1 t u : nat) (img : list (list Z)) :
  cell (slice2 (Z.of_nat r0) (Z.of_nat r1) (Z.of_nat c0) (Z.of_nat c1) img) t u =
  if ((r0 + t <? r1) && (c0 + u <? c1))%nat
  then cell img (r0 + t) (c0 + u) else -1.
Proof.
  unfold cell, slice2.
  rewrite <- (slice_nil (Z.of_nat c0) (Z.of_nat c1)) at 1.
  rewrite map_nth, nth_slice, nth_slice.
  destruct (r0 + t <? r1)%nat; simpl.
  - reflexivity.
  - destruct (c0 + u <? c1)%nat; [|reflexivity].
    now destruct (c0 + u)%nat.
Qed.

Lemma scan_bounds_blank (k : nat -> nat -> bool) (m n : nat) :
  (forall a b, (a < m)%nat -> (b < n)%nat -> k a b = false) ->
  scan_bounds k m n = (n, 0%nat).
Proof.
  intros Hk. unfold scan_bounds.
  apply (fold_left_invariant _ (fun st => st = (n, 0%nat))); [|reflexivity].
  intros st a Ha ->. apply in_range in Ha.
  apply (fold_left_invariant _ (fun st => st = (n, 0%nat))); [|reflexivity].
  intros st b Hb ->. apply in_range in Hb. unfold scan_body.
  rewrite (Hk a b Ha Hb), (Hk a (n - b - 1)%nat Ha) by lia. reflexivity.
Qed.

Lemma known_all_unknown (cells : list Z) (height width i j : nat) :
  length cells = (height * width)%nat ->
  Forall (fun v => v = -1) cells ->
  (i < height)%nat -> (j < width)%nat ->
  known (chunks height width cells) i j = false.
Proof.
  intros Hlen Hall Hi Hj.
  pose proof (cell_reshape cells height width i j Hlen Hi Hj) as Hc.
  rewrite Forall_forall in Hall. apply nth_error_In, Hall in Hc.
  unfold known. now rewrite Hc.
Qed.

Lemma in_slice {A : Type} (a b : Z) (l : list A) (x : A) :
  In x (slice a b l) -> In x l.
Proof.
  unfold slice. intros H.
  set (n := slice_bound (length l) a) in *.
  set (m := (slice_bound (length l) b - n)%nat) in *.
  rewrite <- (firstn_skipn n l). apply in_or_app. right.
  rewrite <- (firstn_skipn m (skipn n l)). apply in_or_app. now left.
Qed.

Lemma concat_map_nil {A B : Type} (f : A -> list B) (l : list A) :
  (forall x, In x l -> f x = []) -> concat (map f l) = [].
Proof.
  induction l as [|x l IH]; simpl; intros H; [reflexivity|].
  rewrite (H x (or_introl eq_refl)), IH; auto.
Qed.

Lemma slice_whole {A : Type} (b : Z) (l : list A) :
  Z.of_nat (length l) <= b -> slice 0 b l = l.
Proof.
  intros Hb. replace b with (Z.of_nat (Z.to_nat b)) by lia.
  change 0 with (Z.of_nat 0). rewrite slice_nat. simpl.
  rewrite Nat.min_r by lia. rewrite Nat.sub_0_r. now apply firstn_all2.
Qed.

Lemma slice_void {A : Type} (a b : Z) (l : list A) :
  0 <= b <= a -> slice a b l = [].
Proof.
  intros H. replace a with (Z.of_nat (Z.to_nat a)) by lia.
  replace b with (Z.of_nat (Z.to_nat b)) by lia. rewrite slice_nat.
  replace (_ - _)%nat with 0%nat by lia. reflexivity.
Qed.

(** X2.  A grid without a known cell leaves the four bounds of the crop at
    their initial values ([width], 0, [height], 0).  With a padding of at
    most half the height or half the width the crop then holds no cell at
    all; with a padding of at least the height and the width it is the
    whole grid. *)
Theorem crop_all_unknown (cells : list Z) (height width : nat) (padding : Z) :
  length cells = (height * width)%nat ->
  Forall (fun v => v = -1) cells ->
  0 <= padding ->
  exists out,
    get_map_img cells (height, width) true padding = Ok out /\
    (2 * padding <= Z.of_nat height \/ 2 * padding <= Z.of_nat width ->
     concat out = []) /\
    (Z.of_nat height <= padding -> Z.of_nat width <= padding ->
     out = chunks height width cells).
Proof.
  intros Hlen Hall Hpad.
  set (img := chunks height width cells).
  destruct (chunks_shape height width cells Hlen) as [Hrows Hcols].
  fold img in Hrows, Hcols. rewrite Forall_forall in Hcols.
  assert (Hcb : col_bounds img height width = (width, 0%nat)).
  { rewrite col_bounds_scan. apply scan_bounds_blank.
    intros i j Hi Hj. now apply known_all_unknown. }
  assert (Hrb : row_bounds img height width = (height, 0%nat)).
  { rewrite row_bounds_scan. apply scan_bounds_blank.
    intros j i Hj Hi. now apply known_all_unknown. }
  eexists. split; [|split].
  - unfold get_map_img, reshape. rewrite Hlen, Nat.eqb_refl. simpl bind.
    fold img. rewrite Hcb, Hrb, !clamp_low_max. reflexivity.
  - intros [Hh|Hw]; unfold slice2.
    + rewrite (slice_void _ _ img) by lia. reflexivity.
    + apply concat_map_nil. intros row Hrow. apply in_slice in Hrow.
      apply slice_void. lia.
  - intros Hh Hw. unfold slice2.
    replace (Z.max (Z.of_nat height) padding - padding) with 0 by lia.
    replace (Z.max (Z.of_nat width) padding - padding) with 0 by lia.
    rewrite (slice_whole _ img) by lia.
    rewrite <- (map_id img) at 2. apply map_ext_in.
    intros row Hrow. apply slice_whole. rewrite (Hcols row Hrow). lia.
Qed.

(** X3.  With a padding of one cell or more the crop keeps every known
    cell: the result is a window of the grid that starts at row [lo_row],
    column [lo_col], and the known cell of row [i], column [j] is found in
    it at row [i - lo_row], column [j - lo_col]. *)
Theorem crop_keeps_known_cells (cells : list Z) (height width : nat)
  (padding : Z) :
  length cells = (height * width)%nat ->
  1 <= padding ->
  exists out lo_row lo_col,
    get_map_img cells (height, width) true padding = Ok out /\
    forall i j, (i < height)%nat -> (j < width)%nat ->
      known (chunks height width cells) i j = true ->
      (lo_row <= i)%nat /\ (lo_col <= j)%nat /\
      cell out (i - lo_row) (j - lo_col) = cell (chunks height width cells) i j.
Proof.
  intros Hlen Hpad.
  set (img := chunks height width cells).
  destruct (col_bounds img height width) as [cmin cmax] eqn:Hcb.
  destruct (row_bounds img height width) as [rmin rmax] eqn:Hrb.
  set (lo_row := Z.to_nat (Z.max (Z.of_nat rmin) padding - padding)).
  set (lo_col := Z.to_nat (Z.max (Z.of_nat cmin) padding - padding)).
  set (hi_row := (rmax + Z.to_nat padding)%nat).
  set (hi_col := (cmax + Z.to_nat padding)%nat).
  exists (slice2 (Z.of_nat lo_row) (Z.of_nat hi_row)
                 (Z.of_nat lo_col) (Z.of_nat hi_col) img), lo_row, lo_col.
  split.
  - unfold get_map_img, reshape. rewrite Hlen, Nat.eqb_refl. simpl bind.
    fold img. rewrite Hcb, Hrb, !clamp_low_max.
    unfold lo_row, lo_col, hi_row, hi_col.
    rewrite !Z2Nat.id, !Nat2Z.inj_add, !Z2Nat.id by lia. reflexivity.
  - intros i j Hi Hj Hk.
    pose proof (scan_bounds_cover (known img) height width i j Hi Hj Hk) as Hc.
    pose proof (scan_bounds_cover (fun b a => known img a b) width height j i
                  Hj Hi Hk) as Hr.
    rewrite <- col_bounds_scan, Hcb in Hc.
    rewrite <- row_bounds_scan, Hrb in Hr. simpl in Hc, Hr.
    assert (Hlr : (lo_row <= i)%nat) by (unfold lo_row; lia).
    assert (Hlc : (lo_col <= j)%nat) by (unfold lo_col; lia).
    split; [exact Hlr|]. split; [exact Hlc|].
    rewrite cell_slice2.
    replace (lo_row + (i - lo_row))%nat with i by lia.
    replace (lo_col + (j - lo_col))%nat with j by lia.
    destruct (Nat.ltb_spec i hi_row) as [_|H]; [|unfold hi_row in H; lia].
    destruct (Nat.ltb_spec j hi_col) as [_|H]; [|unfold hi_col in H; lia].
    reflexivity.
Qed.

Lemma slice_length {A : Type} (a b : nat) (l : list A) :
  length (slice (Z.of_nat a) (Z.of_nat b) l) =
  (Nat.min b (length l) - Nat.min a (length l))%nat.
Proof. rewrite slice_nat, length_firstn, length_skipn. lia. Qed.

Lemma shape_slice2 (r0 r1 c0 c1 : nat) (img : list (list Z)) (rows cols : nat) :
  shape img rows cols ->
  shape (slice2 (Z.of_nat r0) (Z.of_nat r1) (Z.of_nat c0) (Z.of_nat c1) img)
    (Nat.min r1 rows - Nat.min r0 rows) (Nat.min c1 cols - Nat.min c0 cols).
Proof.
  intros [Hrows Hcols]. unfold shape, slice2. split.
  - now rewrite length_map, slice_length, Hrows.
  - rewrite Forall_forall in *. intros row Hrow.
    apply in_map_iff in Hrow as (row0 & <- & Hrow0).
    apply in_slice in Hrow0. now rewrite slice_length, (Hcols row0 Hrow0).
Qed.

(** X16.  The cells of the crop.  For a grid with a cell different from -1
    and a padding of [padding] cells, the result is the window of the grid
    made of the rows [lo_row <= r < hi_row] and the columns
    [lo_col <= c < hi_col], where [lo_row = min_row - padding] (0 when the
    padding is larger), [hi_row] is the smaller of [max_row + padding] and
    [height], and likewise for the columns: the row [max_row + padding] and
    the column [max_col + padding] are never part of it. *)
Theorem crop_window (cells : list Z) (height width padding : nat) :
  length cells = (height * width)%nat ->
  (exists idx v, nth_error cells idx = Some v /\ v <> -1) ->
  exists (min_row max_row min_col max_col : nat) (out : list (list Z)),
    let img := chunks height width cells in
    let lo_row := (min_row - padding)%nat in
    let lo_col := (min_col - padding)%nat in
    let hi_row := Nat.min (max_row + padding) height in
    let hi_col := Nat.min (max_col + padding) width in
    tight_box img height width min_row max_row min_col max_col /\
    get_map_img cells (height, width) true (Z.of_nat padding) = Ok out /\
    shape out (hi_row - lo_row) (hi_col - lo_col) /\
    forall t u, (t < hi_row - lo_row)%nat -> (u < hi_col - lo_col)%nat ->
      cell out t u = cell img (lo_row + t) (lo_col + u).
Proof.
  intros Hlen (idx & v & Hidx & Hv).
  destruct (known_reshape cells height width idx v Hlen Hidx Hv)
    as (i0 & j0 & Hi0 & Hj0 & Hk0).
  set (img := chunks height width cells) in *.
  pose proof (scan_bounds_tight (known img) height width i0 j0 Hi0 Hj0 Hk0)
    as (Hc0 & Hc1 & Hc1w & Hcin).
  pose proof (scan_bounds_tight (fun j i => known img i j) width height j0 i0
                Hj0 Hi0 Hk0) as (Hr0 & Hr1 & Hr1h & Hrin).
  rewrite <- col_bounds_scan in Hc0, Hc1, Hc1w, Hcin.
  rewrite <- row_bounds_scan in Hr0, Hr1, Hr1h, Hrin.
  destruct (col_bounds img height width) as [cmin cmax] eqn:Hcb.
  destruct (row_bounds img height width) as [rmin rmax] eqn:Hrb.
  simpl fst in *. simpl snd in *.
  pose proof (Hrin j0 i0 Hj0 Hi0 Hk0) as Hrle.
  pose proof (Hcin i0 j0 Hi0 Hj0 Hk0) as Hcle.
  exists rmin, rmax, cmin, cmax,
    (slice2 (Z.of_nat (rmin - padding)) (Z.of_nat (rmax + padding))
            (Z.of_nat (cmin - padding)) (Z.of_nat (cmax + padding)) img).
  cbv zeta. split; [|split; [|split]].
  - unfold tight_box. repeat (split; [assumption|]).
    intros i j Hi Hj Hk. split; [now apply (Hrin j i)|now apply (Hcin i j)].
  - unfold get_map_img, reshape. rewrite Hlen, Nat.eqb_refl. simpl bind.
    fold img. rewrite Hcb, Hrb, !clamp_low_max. f_equal. f_equal; lia.
  - pose proof (shape_slice2 (rmin - padding) (rmax + padding) (cmin - padding)
                  (cmax + padding) img height width
                  (chunks_shape height width cells Hlen)) as Hshape.
    rewrite (Nat.min_l (rmin - padding) height) in Hshape by lia.
    rewrite (Nat.min_l (cmin - padding) width) in Hshape by lia.
    exact Hshape.
  - intros t u Ht Hu. rewrite cell_slice2.
    destruct (Nat.ltb_spec (rmin - padding + t) (rmax + padding)) as [_|H];
      [|lia].
    destruct (Nat.ltb_spec (cmin - padding + u) (cmax + padding)) as [_|H];
      [|lia].
    reflexivity.
Qed.

(** ** The scan of [merge_maps] *)

Lemma track_fst (x : Z) (mn mx : option Z) (m : Z) :
  fst (track x mn mx) = Some m -> m = x \/ mn = Some m.
Proof.
  unfold track. destruct (below x mn); simpl; [intros H; injection H; auto|].
  destruct (above x mx); simpl; auto.
Qed.

Lemma track_snd (x : Z) (mn mx : option Z) (m : Z) :
  snd (track x mn mx) = Some m -> m = x \/ mx = Some m.
Proof.
  unfold track. destruct (below x mn); simpl; [auto|].
  destruct (above x mx); simpl; [intros H; injection H; auto|auto].
Qed.

Lemma track_order (x : Z) (mn mx : option Z) :
  (forall b, mx = Some b -> exists a, mn = Some a /\ a <= b) ->
  forall b, snd (track x mn mx) = Some b ->
  exists a, fst (track x mn mx) = Some a /\ a <= b.
Proof.
  intros H b. unfold track. destruct mn as [a0|]; simpl.
  - destruct (Z.ltb_spec x a0); simpl.
    + intros Hb. destruct (H b Hb) as (a & Ha & Hab). injection Ha as <-.
      exists x. split; [reflexivity|lia].
    + destruct (above x mx); simpl.
      * intros Hb. injection Hb as <-. exists a0. split; [reflexivity|lia].
      * intros Hb. apply (H b Hb).
  - intros Hb. destruct (H b Hb) as (a & Ha & _). discriminate.
Qed.

Section Bounds.
Variables (data : list (list Z)) (ress : list Z) (origins : list (Z * Z))
          (sizes : list (nat * nat)) (threshold : Z) (st : state).
Hypothesis Hscan : scan_maps data ress origins sizes threshold = Ok st.

Local Abbreviation seen := (observes data ress origins sizes).

(** Every coordinate that a source reports is recorded. *)
Lemma scan_records_every (p : point) (v : Z) :
  seen p v -> dict_get p (grid st) <> None.
Proof.
  intros (k & r & ox & oy & i & j & Hcell & <-).
  assert (Hne : v <> -1) by (destruct Hcell as (? & ? & ? & H); tauto).
  refine (scan_maps_reaches data ress origins sizes threshold
            (fun s => dict_get (world r ox oy i j) (grid s) <> None)
            _ _ k r ox oy i j v st Hcell _ Hscan); [auto| |].
  - intros k' r' ox' oy' i' j' v' s Hc' Hs.
    assert (Hne' : v' <> -1) by (destruct Hc' as (? & ? & ? & H); tauto).
    rewrite visit_known by exact Hne'. simpl grid.
    rewrite dict_get_record_cell.
    destruct (point_eqb _ _) eqn:E; [|exact Hs].
    destruct (threshold <? v'); [discriminate|].
    destruct (dict_get (world r' ox' oy' i' j') (grid s)); discriminate.
  - intros s. rewrite visit_known by exact Hne. simpl grid.
    rewrite dict_get_record_cell, point_eqb_refl.
    destruct (threshold <? v); [discriminate|].
    destruct (dict_get _ (grid s)); discriminate.
Qed.

(** A coordinate recorded as an obstacle is one where some source reports a
    value above the threshold. *)
Lemma scan_obstacle_observed (p : point) :
  dict_get p (grid st) = Some true -> exists v, seen p v /\ threshold < v.
Proof.
  refine (scan_maps_invariant data ress origins sizes threshold
            (fun s => dict_get p (grid s) = Some true ->
               exists v, seen p v /\ threshold < v) _ _ st Hscan _);
    [auto| |discriminate].
  intros k r ox oy i j v s Hc Hs.
  assert (Hne : v <> -1) by (destruct Hc as (? & ? & ? & H); tauto).
  rewrite visit_known by exact Hne. simpl grid.
  rewrite dict_get_record_cell.
  destruct (point_eqb p (world r ox oy i j)) eqn:E; [|exact Hs].
  apply point_eqb_eq in E. subst p.
  destruct (Z.ltb_spec threshold v) as [Hlt|Hle].
  - intros _. exists v. split; [|exact Hlt]. exists k, r, ox, oy, i, j. auto.
  - destruct (dict_get _ (grid s)) as [b|]; [|discriminate].
    intros H. injection H as ->. now apply Hs.
Qed.

(** Each finite bound is a coordinate that some source reports. *)
Lemma scan_bounds_attained :
  (forall m, min_x st = Some m -> exists q v, seen q v /\ fst q = m) /\
  (forall m, max_x st = Some m -> exists q v, seen q v /\ fst q = m) /\
  (forall m, min_y st = Some m -> exists q v, seen q v /\ snd q = m) /\
  (forall m, max_y st = Some m -> exists q v, seen q v /\ snd q = m).
Proof.
  refine (scan_maps_invariant data ress origins sizes threshold
            (fun s =>
               (forall m, min_x s = Some m -> exists q v, seen q v /\ fst q = m) /\
               (forall m, max_x s = Some m -> exists q v, seen q v /\ fst q = m) /\
               (forall m, min_y s = Some m -> exists q v, seen q v /\ snd q = m) /\
               (forall m, max_y s = Some m -> exists q v, seen q v /\ snd q = m))
            _ _ st Hscan _); [auto| |repeat split; discriminate].
  intros k r ox oy i j v s Hc (H1 & H2 & H3 & H4).
  assert (Hne : v <> -1) by (destruct Hc as (? & ? & ? & H); tauto).
  assert (Hseen : seen (world r ox oy i j) v) by (exists k, r, ox, oy, i, j; auto).
  rewrite visit_known by exact Hne. simpl.
  repeat split; intros m Hm.
  - apply track_fst in Hm as [->|Hm]; [eauto|auto].
  - apply track_snd in Hm as [->|Hm]; [eauto|auto].
  - apply track_fst in Hm as [->|Hm]; [eauto|auto].
  - apply track_snd in Hm as [->|Hm]; [eauto|auto].
Qed.

(** A finite maximum comes with a finite minimum that is not above it. *)
Lemma scan_bounds_ordered :
  (forall b, max_x st = Some b -> exists a, min_x st = Some a /\ a <= b) /\
  (forall b, max_y st = Some b -> exists a, min_y st = Some a /\ a <= b).
Proof.
  refine (scan_maps_invariant data ress origins sizes threshold
            (fun s =>
               (forall b, max_x s = Some b -> exists a, min_x s = Some a /\ a <= b) /\
               (forall b, max_y s = Some b -> exists a, min_y s = Some a /\ a <= b))
            _ _ st Hscan _); [auto| |split; discriminate].
  intros k r ox oy i j v s Hc [H1 H2].
  assert (Hne : v <> -1) by (destruct Hc as (? & ? & ? & H); tauto).
  rewrite visit_known by exact Hne. simpl.
  split; now apply track_order.
Qed.
End Bounds.

(** X5.  The running minima are exact: once a source reports a known cell,
    [min_x] and [min_y] are finite when the scan ends, no reported
    coordinate is below them, and each is the coordinate of a reported
    cell. *)
Theorem running_minima_exact
  (data : list (list Z)) (ress : list Z) (origins : list (Z * Z))
  (sizes : list (nat * nat)) (threshold : Z) (st : state) (p : point) (v : Z) :
  scan_maps data ress origins sizes threshold = Ok st ->
  observes data ress origins sizes p v ->
  exists mx my,
    min_x st = Some mx /\ min_y st = Some my /\
    (forall q u, observes data ress origins sizes q u ->
       mx <= fst q /\ my <= snd q) /\
    (exists q u, observes data ress origins sizes q u /\ fst q = mx) /\
    (exists q u, observes data ress origins sizes q u /\ snd q = my).
Proof.
  intros Hscan Hobs.
  assert (Hle : forall q u, observes data ress origins sizes q u ->
            le_min (min_x st) (fst q) /\ le_min (min_y st) (snd q)).
  { intros q u Hq.
    pose proof (scan_records_every _ _ _ _ _ st Hscan q u Hq) as Hget.
    destruct (dict_get q (grid st)) as [b|] eqn:E; [|contradiction].
    apply dict_get_in in E. now apply (scan_minima _ _ _ _ _ st Hscan q b). }
  destruct (Hle p v Hobs) as [Hx Hy].
  destruct (min_x st) as [mx|] eqn:Ex; [|contradiction].
  destruct (min_y st) as [my|] eqn:Ey; [|contradiction].
  destruct (scan_bounds_attained _ _ _ _ _ st Hscan) as (A1 & _ & A3 & _).
  exists mx, my. repeat split; auto.
  - now apply (Hle q u).
  - now apply (Hle q u).
Qed.

(** X6.  The running maxima never overshoot: a finite [max_x] or [max_y] is
    the coordinate of a reported cell and is at or above the matching
    minimum, which is then finite too. *)
Theorem running_maxima_sound
  (data : list (list Z)) (ress : list Z) (origins : list (Z * Z))
  (sizes : list (nat * nat)) (threshold : Z) (st : state) :
  scan_maps data ress origins sizes threshold = Ok st ->
  (forall m, max_x st = Some m ->
     (exists q u, observes data ress origins sizes q u /\ fst q = m) /\
     (exists a, min_x st = Some a /\ a <= m)) /\
  (forall m, max_y st = Some m ->
     (exists q u, observes data ress origins sizes q u /\ snd q = m) /\
     (exists a, min_y st = Some a /\ a <= m)).
Proof.
  intros Hscan.
  destruct (scan_bounds_attained _ _ _ _ _ st Hscan) as (_ & A2 & _ & A4).
  destruct (scan_bounds_ordered _ _ _ _ _ st Hscan) as (O1 & O2).
  split; intros m Hm; split; auto.
Qed.

(** X7.  What the scan records does not depend on the order of the
    sources: a coordinate is recorded as an obstacle exactly when some
    source reports a value above the threshold there, as free exactly when
    sources report it and none above the threshold, and not at all exactly
    when no source reports it. *)
Theorem scan_dictionary
  (data : list (list Z)) (ress : list Z) (origins : list (Z * Z))
  (sizes : list (nat * nat)) (threshold : Z) (st : state) (p : point) :
  scan_maps data ress origins sizes threshold = Ok st ->
  (dict_get p (grid st) = Some true <->
   exists v, observes data ress origins sizes p v /\ threshold < v) /\
  (dict_get p (grid st) = Some false <->
   (exists v, observes data ress origins sizes p v) /\
   forall v, observes data ress origins sizes p v -> v <= threshold) /\
  (dict_get p (grid st) = None <->
   forall v, ~ observes data ress origins sizes p v).
Proof.
  intros Hscan. split; [|split]; split.
  - now apply (scan_obstacle_observed _ _ _ _ _ st Hscan).
  - intros (v & Hobs & Hv).
    now apply (scan_records_obstacle _ _ _ _ _ st Hscan p v).
  - intros Hget. split.
    + apply dict_get_in in Hget.
      now apply (scan_keys_observed _ _ _ _ _ st Hscan p false).
    + intros v Hobs. destruct (Z.le_gt_cases v threshold) as [|Hgt]; [assumption|].
      rewrite (scan_records_obstacle _ _ _ _ _ st Hscan p v Hobs) in Hget by lia.
      discriminate.
  - intros [[v Hobs] Hall].
    now apply (scan_records_free _ _ _ _ _ st Hscan p v).
  - intros Hget v Hobs.
    now apply (scan_records_every _ _ _ _ _ st Hscan p v).
  - intros Hnone. destruct (dict_get p (grid st)) as [b|] eqn:E; [|reflexivity].
    apply dict_get_in in E.
    destruct (scan_keys_observed _ _ _ _ _ st Hscan p b E) as [v Hobs].
    now apply Hnone in Hobs.
Qed.

(** X8.  Raising the threshold only turns obstacles into free cells: for
    two scans of the same inputs, every coordinate recorded as an obstacle
    under the higher threshold is one under the lower threshold, and the
    two scans record the same coordinates. *)
Theorem threshold_monotone
  (data : list (list Z)) (ress : list Z) (origins : list (Z * Z))
  (sizes : list (nat * nat)) (low high : Z) (st_low st_high : state)
  (p : point) :
  low <= high ->
  scan_maps data ress origins sizes low = Ok st_low ->
  scan_maps data ress origins sizes high = Ok st_high ->
  (dict_get p (grid st_high) = Some true ->
   dict_get p (grid st_low) = Some true) /\
  (dict_get p (grid st_low) = None <-> dict_get p (grid st_high) = None).
Proof.
  intros Hle Hlow Hhigh. split.
  - intros Hget.
    destruct (scan_obstacle_observed _ _ _ _ _ st_high Hhigh p Hget)
      as (v & Hobs & Hv).
    apply (scan_records_obstacle _ _ _ _ _ st_low Hlow p v Hobs). lia.
  - assert (Hnone : forall t s, scan_maps data ress origins sizes t = Ok s ->
              (dict_get p (grid s) = None <->
               forall v, ~ observes data ress origins sizes p v)).
    { intros t s Hs. split.
      - intros Hget v Hobs.
        now apply (scan_records_every _ _ _ _ _ s Hs p v).
      - intros Hno. destruct (dict_get p (grid s)) as [b|] eqn:E; [|reflexivity].
        apply dict_get_in in E.
        destruct (scan_keys_observed _ _ _ _ _ s Hs p b E) as [v Hobs].
        now apply Hno in Hobs. }
    rewrite (Hnone low st_low Hlow), (Hnone high st_high Hhigh). tauto.
Qed.

(** ** The array that [merge_maps] returns *)

(** A cell holds -1 exactly where no recorded coordinate lands. *)
Lemma rasterize_unknown (st : state) (img : list (list Z)) (row col : nat) :
  rasterize st = Ok img ->
  (cell img row col = -1 <->
   forall p, In p (map fst (grid st)) -> out_pixel st p <> Some (row, col)).
Proof.
  intros Hras. apply rasterize_ok in Hras as (_ & _ & Hcell).
  rewrite Hcell. split.
  - intros Hval p Hp Hpx. apply in_map_iff in Hp as ([q b] & <- & Hin).
    pose proof (last_painted_hit (out_pixel st) (grid st) row col q b Hin Hpx).
    destruct (last_painted _ _ _ _) as [[|]|]; [discriminate|discriminate|auto].
  - intros Hnone. rewrite last_painted_none; [reflexivity|].
    intros q c Hin. apply Hnone. now apply (in_map fst) in Hin.
Qed.

(** X9.  Every cell of the array that [merge_maps] returns is -1, 0 or
    100, whatever occupancy values the sources hold. *)
Theorem merge_output_values
  (data : list (list Z)) (ress : list Z) (origins : list (Z * Z))
  (sizes : list (nat * nat)) (threshold : Z) (img : list (list Z)) :
  merge_maps data ress origins sizes threshold = Ok img ->
  Forall (Forall (fun v => v = -1 \/ v = 0 \/ v = 100)) img.
Proof.
  intros Hmerge. unfold merge_maps in Hmerge.
  apply bind_ok in Hmerge as (st & _ & Hras).
  apply rasterize_ok in Hras as (_ & _ & Hcell).
  apply Forall_forall. intros line Hline. apply Forall_forall. intros v Hv.
  destruct (In_nth img line [] Hline) as (row & _ & <-).
  destruct (In_nth _ v (-1) Hv) as (col & _ & <-).
  change (nth col (nth row img []) (-1)) with (cell img row col).
  rewrite Hcell.
  destruct (last_painted _ _ _ _) as [[|]|]; simpl; auto.
Qed.

(** X10.  In the array that [merge_maps] returns, a cell is -1 exactly
    when no recorded coordinate is rounded onto it: unknown cells of the
    sources never write, and every recorded coordinate does. *)
Theorem merge_unknown_cells
  (data : list (list Z)) (ress : list Z) (origins : list (Z * Z))
  (sizes : list (nat * nat)) (threshold : Z) (img : list (list Z)) :
  merge_maps data ress origins sizes threshold = Ok img ->
  exists st,
    scan_maps data ress origins sizes threshold = Ok st /\
    forall row col,
      cell img row col = -1 <->
      forall p b, In (p, b) (grid st) -> out_pixel st p <> Some (row, col).
Proof.
  intros Hmerge. unfold merge_maps in Hmerge.
  apply bind_ok in Hmerge as (st & Hscan & Hras).
  exists st. split; [exact Hscan|]. intros row col.
  rewrite (rasterize_unknown st img row col Hras). split.
  - intros H p b Hin. apply H. now apply (in_map fst) in Hin.
  - intros H p Hp. apply in_map_iff in Hp as ([q b] & <- & Hin). now apply (H q b).
Qed.

(** ** Exceptions while the inputs are read *)

(** X11.  A grid with fewer cells than its declared size makes
    [merge_maps] raise [IndexError]: the scan reads cell
    [height * width - 1] of every source it reaches. *)
Theorem merge_short_grid_raises
  (data : list (list Z)) (ress : list Z) (origins : list (Z * Z))
  (sizes : list (nat * nat)) (threshold : Z)
  (k : nat) (occupancy : list Z) (height width : nat) :
  nth_error data k = Some occupancy ->
  nth_error sizes k = Some (height, width) ->
  (length occupancy < height * width)%nat ->
  merge_maps data ress origins sizes threshold = Raise IndexError.
Proof.
  intros Hocc Hsize Hshort.
  assert (Hfail : fails (scan_maps data ress origins sizes threshold)).
  { unfold scan_maps. apply for_each_fails with (x := k).
    - apply in_range. apply nth_error_Some. congruence.
    - intros s. unfold source_body, subscript at 1. rewrite Hocc. simpl.
      destruct (subscript ress k) as [r|e]; simpl; [|now exists e].
      destruct (subscript origins k) as [[ox oy]|e]; simpl; [|now exists e].
      unfold subscript at 1. rewrite Hsize. simpl. unfold scan_source.
      apply for_each_fails with (x := (width - 1)%nat); [apply in_range; nia|].
      intros t. apply for_each_fails with (x := (height - 1)%nat);
        [apply in_range; nia|].
      intros u. rewrite subscript_short by nia. now exists IndexError. }
  destruct Hfail as [e He]. unfold merge_maps. rewrite He. simpl.
  now rewrite (scan_maps_raises _ _ _ _ _ _ He).
Qed.

(** X12.  Reading the inputs raises nothing when the lists of resolutions
    and origins are as long as the list of grids and every grid has at
    least [height * width] cells: the scan completes, and what
    [merge_maps] does is what lines 146-153 do with its outcome. *)
Theorem scan_maps_total
  (data : list (list Z)) (ress : list Z) (origins : list (Z * Z))
  (sizes : list (nat * nat)) (threshold : Z) :
  length ress = length data ->
  length origins = length data ->
  Forall2 (fun occupancy size =>
             (fst size * snd size <= length occupancy)%nat) data sizes ->
  exists st,
    scan_maps data ress origins sizes threshold = Ok st /\
    merge_maps data ress origins sizes threshold = rasterize st.
Proof.
  intros Hress Horigins Hall.
  assert (Hrun : exists st, scan_maps data ress origins sizes threshold = Ok st).
  { unfold scan_maps. apply for_each_total. intros k s Hk. apply in_range in Hk.
    destruct (nth_error data k) as [occupancy|] eqn:E1;
      [|apply nth_error_None in E1; lia].
    destruct (nth_error ress k) as [r|] eqn:E2;
      [|apply nth_error_None in E2; lia].
    destruct (nth_error origins k) as [[ox oy]|] eqn:E3;
      [|apply nth_error_None in E3; lia].
    destruct (Forall2_nth_error _ _ _ _ _ Hall E1) as ([height width] & E4 & Hlen).
    simpl in Hlen. unfold source_body, subscript. rewrite E1, E2, E3, E4. simpl.
    now apply scan_source_total. }
  destruct Hrun as [st Hst]. exists st. split; [exact Hst|].
  unfold merge_maps. now rewrite Hst.
Qed.

(** X13.  A single source in which exactly one cell is known cannot be
    merged: that cell sets the two minima, the maxima stay at [-inf], and
    the computation of the output size raises [OverflowError]. *)
Theorem merge_single_known_cell
  (occupancy : list Z) (r ox oy : Z) (height width : nat) (threshold : Z)
  (i0 j0 : nat) (v0 : Z) :
  r <> 0 ->
  length occupancy = (height * width)%nat ->
  (i0 < width)%nat -> (j0 < height)%nat ->
  nth_error occupancy (i0 + j0 * width) = Some v0 -> v0 <> -1 ->
  (forall k, k <> (i0 + j0 * width)%nat -> nth k occupancy (-1) = -1) ->
  merge_maps [occupancy] [r] [(ox, oy)] [(height, width)] threshold =
  Raise OverflowError.
Proof.
  intros Hr Hlen Hi0 Hj0 Hv0 Hne Hrest.
  assert (Hread : forall i j s, (i < width)%nat -> (j < height)%nat ->
            (i, j) <> (i0, j0) ->
            (v <- subscript occupancy (i + j * width)%nat ;;
             Ok (visit threshold r ox oy i j v s)) = Ok s).
  { intros i j s Hi Hj Hij.
    assert (Hk : (i + j * width)%nat <> (i0 + j0 * width)%nat).
    { intros E. apply Hij.
      destruct (Nat.lt_trichotomy j j0) as [H|[H|H]]; [nia| |nia].
      subst j. f_equal. lia. }
    assert (Hlt : (i + j * width < length occupancy)%nat) by nia.
    unfold subscript. rewrite (nth_error_nth' occupancy (-1) Hlt), (Hrest _ Hk).
    reflexivity. }
  assert (Hscan : scan_maps [occupancy] [r] [(ox, oy)] [(height, width)] threshold
                  = Ok (visit threshold r ox oy i0 j0 v0 (bind_resolution r initial))).
  { unfold scan_maps. simpl. unfold source_body. simpl. unfold scan_source.
    rewrite (for_each_single _ (range width) i0);
      [|apply seq_NoDup|now apply in_range|].
    - rewrite (for_each_single _ (range height) j0);
        [|apply seq_NoDup|now apply in_range|].
      + unfold subscript. rewrite Hv0. reflexivity.
      + intros j t Hj Hjj. apply in_range in Hj. apply Hread; auto. congruence.
    - intros i t Hi Hii. apply in_range in Hi.
      apply for_each_idle. intros j Hj. apply in_range in Hj.
      apply Hread; auto. congruence. }
  unfold merge_maps. rewrite Hscan. simpl bind.
  rewrite visit_known by exact Hne. unfold rasterize, round_quot. simpl.
  apply Z.eqb_neq in Hr. now rewrite Hr.
Qed.

(** ** The threshold and the shape of the result *)

Lemma dict_mem_keys (p : point) (d d' : dict) :
  map fst d = map fst d' -> dict_mem p d = dict_mem p d'.
Proof.
  intros Hk. unfold dict_mem.
  destruct (dict_get p d) eqn:E1, (dict_get p d') eqn:E2; try reflexivity.
  - apply dict_get_none in E2. rewrite <- Hk in E2.
    apply dict_get_none in E2. congruence.
  - apply dict_get_none in E1. rewrite Hk in E1.
    apply dict_get_none in E1. congruence.
Qed.

Lemma record_cell_keys (threshold v : Z) (p : point) (d : dict) :
  map fst (record_cell threshold v p d) =
  if dict_mem p d then map fst d else map fst d ++ [p].
Proof.
  unfold record_cell. destruct (threshold <? v); [apply dict_set_keys|].
  destruct (dict_mem p d) eqn:E; [reflexivity|].
  now rewrite dict_set_keys, E.
Qed.

Lemma visit_footprint (low high r ox oy : Z) (i j : nat) (v : Z) (a b : state) :
  footprint a = footprint b ->
  footprint (visit low r ox oy i j v a) = footprint (visit high r ox oy i j v b).
Proof.
  intros H. destruct (Z.eq_dec v (-1)) as [->|Hne];
    [now rewrite !visit_unknown|].
  rewrite !visit_known by exact Hne. unfold footprint in *. simpl.
  injection H as Hk Hx1 Hx2 Hy1 Hy2 Hres.
  rewrite !record_cell_keys, (dict_mem_keys _ _ _ Hk), Hk, Hx1, Hx2, Hy1, Hy2, Hres.
  reflexivity.
Qed.

Lemma for_each_agree {X S : Type} (R : S -> S -> Prop)
  (body1 body2 : X -> S -> result S) (l : list X) :
  (forall x s1 s2, In x l -> R s1 s2 -> agree R (body1 x s1) (body2 x s2)) ->
  forall s1 s2, R s1 s2 -> agree R (for_each l body1 s1) (for_each l body2 s2).
Proof.
  induction l as [|y l IH]; simpl; intros H s1 s2 Hs; [exact Hs|].
  pose proof (H y s1 s2 (or_introl eq_refl) Hs) as Hy.
  destruct (body1 y s1) as [t1|e1], (body2 y s2) as [t2|e2]; simpl in *;
    try contradiction; [|exact Hy].
  apply IH; [|exact Hy]. intros x u1 u2 Hx. apply H. now right.
Qed.

(** Two scans of the same inputs under two thresholds end alike: they
    raise the same exception, or leave the same footprint. *)
Lemma scan_maps_agree data ress origins sizes (low high : Z) :
  agree (fun a b => footprint a = footprint b)
    (scan_maps data ress origins sizes low)
    (scan_maps data ress origins sizes high).
Proof.
  unfold scan_maps. apply for_each_agree; [|reflexivity].
  intros k s1 s2 _ Hs. unfold source_body.
  destruct (subscript data k) as [occupancy|e]; simpl; [|reflexivity].
  destruct (subscript ress k) as [r|e]; simpl; [|reflexivity].
  destruct (subscript origins k) as [[ox oy]|e]; simpl; [|reflexivity].
  destruct (subscript sizes k) as [[height width]|e]; simpl; [|reflexivity].
  unfold scan_source. apply for_each_agree.
  - intros i t1 t2 _ Ht. apply for_each_agree; [|exact Ht].
    intros j u1 u2 _ Hu.
    destruct (subscript occupancy (i + j * width)) as [v|e]; simpl;
      [|reflexivity].
    now apply visit_footprint.
  - unfold footprint in *. simpl. injection Hs as -> -> -> -> -> _. reflexivity.
Qed.

Lemma out_pixel_footprint (a b : state) (p : point) :
  footprint a = footprint b -> out_pixel a p = out_pixel b p.
Proof.
  unfold footprint, out_pixel. intros H.
  injection H as _ -> -> -> -> ->. reflexivity.
Qed.

(** [rasterize] on two states of one footprint: both return or neither,
    with arrays of one shape that hold -1 at the same cells. *)
Lemma rasterize_footprint (a b : state) (img : list (list Z)) :
  footprint a = footprint b ->
  rasterize a = Ok img ->
  exists img',
    rasterize b = Ok img' /\
    (exists rows cols, shape img rows cols /\ shape img' rows cols) /\
    forall row col, cell img row col = -1 <-> cell img' row col = -1.
Proof.
  intros Hfp Hras.
  assert (Hb : exists img', rasterize b = Ok img').
  { pose proof Hfp as Hfp'. unfold footprint in Hfp'.
    injection Hfp' as Hk Hx1 Hx2 Hy1 Hy2 Hres.
    unfold rasterize in *. rewrite <- Hx1, <- Hx2, <- Hy1, <- Hy2, <- Hres.
    apply bind_ok in Hras as (h & Hh & Hras). rewrite Hh. simpl.
    apply bind_ok in Hras as (w & Hw & Hras). rewrite Hw. simpl.
    apply bind_ok in Hras as (img0 & Hfull & Hloop). rewrite Hfull. simpl.
    apply round_quot_ok in Hh as (r & vh & Er & Hr & Eh & _).
    apply round_quot_ok in Hw as (r' & vw & Er' & _ & Ew & _).
    apply extent_some in Eh as (m_y & o_y & Emy & Eoy & _).
    apply extent_some in Ew as (m_x & o_x & Emx & Eox & _).
    rewrite Er, Eox, Eoy in *.
    assert (Hs0 : shape img0 (Z.to_nat (h + 1)) (Z.to_nat (w + 1))).
    { unfold full in Hfull. destruct (_ || _) in Hfull; [discriminate|].
      injection Hfull as <-. apply shape_full. }
    destruct (paint_loop r o_x o_y _ _ (grid a) Hr img0 img Hs0 Hloop)
      as (_ & Hin & _).
    apply paint_loop_total; [exact Hr|].
    intros p c Hp. apply (in_map fst) in Hp. simpl in Hp. rewrite <- Hk in Hp.
    apply in_map_iff in Hp as ([q c'] & Hq' & Hq). simpl in Hq'. subst q.
    now apply (Hin p c'). }
  destruct Hb as [img' Himg']. exists img'. split; [exact Himg'|]. split.
  - destruct (rasterize_ok a img Hras)
      as ((r & ox & mx & oy & my & E1 & _ & E2 & E3 & E4 & E5 & Hs) & _).
    destruct (rasterize_ok b img' Himg')
      as ((r' & ox' & mx' & oy' & my' & F1 & _ & F2 & F3 & F4 & F5 & Hs') & _).
    unfold footprint in Hfp. injection Hfp as _ Hx1 Hx2 Hy1 Hy2 Hres.
    assert (r' = r) by congruence. assert (ox' = ox) by congruence.
    assert (mx' = mx) by congruence. assert (oy' = oy) by congruence.
    assert (my' = my) by congruence. subst. eauto.
  - intros row col.
    rewrite (rasterize_unknown a img row col Hras).
    rewrite (rasterize_unknown b img' row col Himg').
    assert (Hk : map fst (grid a) = map fst (grid b))
      by (unfold footprint in Hfp; now injection Hfp).
    rewrite Hk. split; intros H p Hp.
    + rewrite <- (out_pixel_footprint a b p Hfp). now apply H.
    + rewrite (out_pixel_footprint a b p Hfp). now apply H.
Qed.

(** X14.  The threshold decides between 0 and 100 and nothing else: when
    [merge_maps] returns under one threshold it returns under any other,
    with an array of the same shape that holds -1 at the same cells. *)
Theorem threshold_changes_values_only
  (data : list (list Z)) (ress : list Z) (origins : list (Z * Z))
  (sizes : list (nat * nat)) (low high : Z) (img : list (list Z)) :
  merge_maps data ress origins sizes low = Ok img ->
  exists img',
    merge_maps data ress origins sizes high = Ok img' /\
    (exists rows cols, shape img rows cols /\ shape img' rows cols) /\
    forall row col, cell img row col = -1 <-> cell img' row col = -1.
Proof.
  intros Hmerge. unfold merge_maps in *.
  apply bind_ok in Hmerge as (a & Hscan & Hras).
  pose proof (scan_maps_agree data ress origins sizes low high) as Hag.
  rewrite Hscan in Hag.
  destruct (scan_maps data ress origins sizes high) as [b|e]; [|contradiction].
  simpl in *. now apply (rasterize_footprint a b img).
Qed.

(** ** Cropping with a large padding *)

(** X4.  With a padding of at least the height and the width, cropping
    changes nothing: [get_map_img] returns the whole reshaped grid, as it
    does without [crop]. *)
Theorem crop_large_padding (cells : list Z) (height width : nat) (padding : Z) :
  length cells = (height * width)%nat ->
  Z.of_nat height <= padding -> Z.of_nat width <= padding ->
  get_map_img cells (height, width) true padding =
  get_map_img cells (height, width) false padding.
Proof.
  intros Hlen Hh Hw.
  set (img := chunks height width cells).
  destruct (chunks_shape height width cells Hlen) as [Hrows Hcols].
  fold img in Hrows, Hcols. rewrite Forall_forall in Hcols.
  pose proof (scan_bounds_sound (known img) height width) as [Hc _].
  pose proof (scan_bounds_sound (fun j i => known img i j) width height) as [Hr _].
  rewrite <- col_bounds_scan in Hc. rewrite <- row_bounds_scan in Hr.
  unfold get_map_img, reshape. rewrite Hlen, Nat.eqb_refl. simpl bind.
  fold img.
  destruct (col_bounds img height width) as [cmin cmax].
  destruct (row_bounds img height width) as [rmin rmax].
  simpl in Hc, Hr. rewrite !clamp_low_max. f_equal. unfold slice2.
  replace (Z.max (Z.of_nat rmin) padding - padding) with 0 by lia.
  replace (Z.max (Z.of_nat cmin) padding - padding) with 0 by lia.
  rewrite (slice_whole _ img) by lia.
  rewrite <- (map_id img) at 2. apply map_ext_in.
  intros row Hrow. apply slice_whole. rewrite (Hcols row Hrow). lia.
Qed.

(** ** Instances *)

Lemma crop_window_witness :
  exists (min_row max_row min_col max_col : nat) (out : list (list Z)),
    let img := chunks 3 3 [-1; -1; -1; -1; 5; -1; -1; -1; -1] in
    let lo_row := (min_row - 1)%nat in
    let lo_col := (min_col - 1)%nat in
    let hi_row := Nat.min (max_row + 1) 3 in
    let hi_col := Nat.min (max_col + 1) 3 in
    tight_box img 3 3 min_row max_row min_col max_col /\
    get_map_img [-1; -1; -1; -1; 5; -1; -1; -1; -1] (3, 3)%nat true 1 = Ok out /\
    shape out (hi_row - lo_row) (hi_col - lo_col) /\
    forall t u, (t < hi_row - lo_row)%nat -> (u < hi_col - lo_col)%nat ->
      cell out t u = cell img (lo_row + t) (lo_col + u).
Proof.
  apply (crop_window [-1; -1; -1; -1; 5; -1; -1; -1; -1] 3 3 1).
  - reflexivity.
  - exists 4%nat, 5. split; [reflexivity|lia].
Defined.

Lemma reshape_row_major_witness :
  exists img,
    get_map_img [1; 2; 3; 4; 5; 6] (2, 3)%nat false 30 = Ok img /\
    shape img 2 3 /\
    concat img = [1; 2; 3; 4; 5; 6] /\
    forall i j, (i < 2)%nat -> (j < 3)%nat ->
      nth_error [1; 2; 3; 4; 5; 6] (i * 3 + j) = Some (cell img i j).
Proof. apply (reshape_row_major [1; 2; 3; 4; 5; 6] 2 3 30). reflexivity. Defined.

Lemma crop_all_unknown_witness :
  exists out,
    get_map_img [-1; -1; -1; -1] (2, 2)%nat true 1 = Ok out /\
    (2 * 1 <= Z.of_nat 2 \/ 2 * 1 <= Z.of_nat 2 -> concat out = []) /\
    (Z.of_nat 2 <= 1 -> Z.of_nat 2 <= 1 -> out = chunks 2 2 [-1; -1; -1; -1]).
Proof.
  apply (crop_all_unknown [-1; -1; -1; -1] 2 2 1).
  - reflexivity.
  - repeat constructor.
  - lia.
Defined.

Lemma crop_keeps_known_cells_witness :
  exists out lo_row lo_col,
    get_map_img [-1; -1; -1; -1; 5; 7; -1; 9; -1] (3, 3)%nat true 1 = Ok out /\
    forall i j, (i < 3)%nat -> (j < 3)%nat ->
      known (chunks 3 3 [-1; -1; -1; -1; 5; 7; -1; 9; -1]) i j = true ->
      (lo_row <= i)%nat /\ (lo_col <= j)%nat /\
      cell out (i - lo_row) (j - lo_col) =
      cell (chunks 3 3 [-1; -1; -1; -1; 5; 7; -1; 9; -1]) i j.
Proof.
  apply (crop_keeps_known_cells [-1; -1; -1; -1; 5; 7; -1; 9; -1] 3 3 1).
  - reflexivity.
  - lia.
Defined.

Lemma crop_large_padding_witness :
  get_map_img [-1; 4; -1; -1] (2, 2)%nat true 30 =
  get_map_img [-1; 4; -1; -1] (2, 2)%nat false 30.
Proof. apply (crop_large_padding [-1; 4; -1; -1] 2 2 30); (reflexivity || lia). Defined.

(** The scan of the sources [[0; 80]] and [[90]], both of one row, the
    second laid one cell to the right of the origin of the first. *)
Definition two_sources_state : state :=
  {| grid := [((0, 0), false); ((1, 0), true)];
     min_x := Some 0; min_y := Some 0; max_x := Some 1; max_y := Some 0;
     resolution := Some 1 |}.

Lemma two_sources_observed :
  observes [[0; 80]; [90]] [1; 1] [(0, 0); (1, 0)] [(1, 2); (1, 1)]%nat (1, 0) 90.
Proof.
  exists 1%nat, 1, 1, 0, 0%nat, 0%nat. split; [|reflexivity].
  exists [90], 1%nat, 1%nat. repeat split; (reflexivity || lia).
Qed.

Lemma running_minima_exact_witness :
  exists mx my,
    min_x two_sources_state = Some mx /\ min_y two_sources_state = Some my /\
    (forall q u,
       observes [[0; 80]; [90]] [1; 1] [(0, 0); (1, 0)] [(1, 2); (1, 1)]%nat q u ->
       mx <= fst q /\ my <= snd q) /\
    (exists q u,
       observes [[0; 80]; [90]] [1; 1] [(0, 0); (1, 0)] [(1, 2); (1, 1)]%nat q u /\
       fst q = mx) /\
    (exists q u,
       observes [[0; 80]; [90]] [1; 1] [(0, 0); (1, 0)] [(1, 2); (1, 1)]%nat q u /\
       snd q = my).
Proof.
  apply (running_minima_exact [[0; 80]; [90]] [1; 1] [(0, 0); (1, 0)]
           [(1, 2); (1, 1)]%nat 70 two_sources_state (1, 0) 90).
  - reflexivity.
  - exact two_sources_observed.
Defined.

Lemma running_maxima_sound_witness :
  (forall m, max_x two_sources_state = Some m ->
     (exists q u,
        observes [[0; 80]; [90]] [1; 1] [(0, 0); (1, 0)] [(1, 2); (1, 1)]%nat q u /\
        fst q = m) /\
     (exists a, min_x two_sources_state = Some a /\ a <= m)) /\
  (forall m, max_y two_sources_state = Some m ->
     (exists q u,
        observes [[0; 80]; [90]] [1; 1] [(0, 0); (1, 0)] [(1, 2); (1, 1)]%nat q u /\
        snd q = m) /\
     (exists a, min_y two_sources_state = Some a /\ a <= m)).
Proof.
  apply (running_maxima_sound [[0; 80]; [90]] [1; 1] [(0, 0); (1, 0)]
           [(1, 2); (1, 1)]%nat 70 two_sources_state).
  reflexivity.
Defined.

Lemma scan_dictionary_witness :
  (dict_get (1, 0) (grid two_sources_state) = Some true <->
   exists v,
     observes [[0; 80]; [90]] [1; 1] [(0, 0); (1, 0)] [(1, 2); (1, 1)]%nat (1, 0) v /\
     70 < v) /\
  (dict_get (1, 0) (grid two_sources_state) = Some false <->
   (exists v,
      observes [[0; 80]; [90]] [1; 1] [(0, 0); (1, 0)] [(1, 2); (1, 1)]%nat (1, 0) v) /\
   forall v,
     observes [[0; 80]; [90]] [1; 1] [(0, 0); (1, 0)] [(1, 2); (1, 1)]%nat (1, 0) v ->
     v <= 70) /\
  (dict_get (1, 0) (grid two_sources_state) = None <->
   forall v,
     ~ observes [[0; 80]; [90]] [1; 1] [(0, 0); (1, 0)] [(1, 2); (1, 1)]%nat (1, 0) v).
Proof.
  apply (scan_dictionary [[0; 80]; [90]] [1; 1] [(0, 0); (1, 0)]
           [(1, 2); (1, 1)]%nat 70 two_sources_state (1, 0)).
  reflexivity.
Defined.

Lemma threshold_monotone_witness :
  (dict_get (1, 0)
     (grid {| grid := [((0, 0), false); ((1, 0), false)];
              min_x := Some 0; min_y := Some 0; max_x := Some 1; max_y := Some 0;
              resolution := Some 1 |}) = Some true ->
   dict_get (1, 0) (grid two_sources_state) = Some true) /\
  (dict_get (1, 0) (grid two_sources_state) = None <->
   dict_get (1, 0)
     (grid {| grid := [((0, 0), false); ((1, 0), false)];
              min_x := Some 0; min_y := Some 0; max_x := Some 1; max_y := Some 0;
              resolution := Some 1 |}) = None).
Proof.
  apply (threshold_monotone [[0; 80]; [90]] [1; 1] [(0, 0); (1, 0)]
           [(1, 2); (1, 1)]%nat 70 95 two_sources_state
           {| grid := [((0, 0), false); ((1, 0), false)];
              min_x := Some 0; min_y := Some 0; max_x := Some 1; max_y := Some 0;
              resolution := Some 1 |} (1, 0)).
  - lia.
  - reflexivity.
  - reflexivity.
Defined.

Lemma merge_output_values_witness :
  Forall (Forall (fun v => v = -1 \/ v = 0 \/ v = 100)) [[0; 100]; [-1; 0]].
Proof.
  apply (merge_output_values [[0; 80; -1; 5]] [2] [(3, 4)] [(2, 2)%nat] 70
           [[0; 100]; [-1; 0]]).
  reflexivity.
Defined.

Lemma merge_unknown_cells_witness :
  exists st,
    scan_maps [[0; 80; -1; 5]] [2] [(3, 4)] [(2, 2)%nat] 70 = Ok st /\
    forall row col,
      cell [[0; 100]; [-1; 0]] row col = -1 <->
      forall p b, In (p, b) (grid st) -> out_pixel st p <> Some (row, col).
Proof.
  apply (merge_unknown_cells [[0; 80; -1; 5]] [2] [(3, 4)] [(2, 2)%nat] 70
           [[0; 100]; [-1; 0]]).
  reflexivity.
Defined.

Lemma merge_short_grid_raises_witness :
  merge_maps [[0; 0]; [0; 0; 0]] [1; 1] [(0, 0); (0, 0)] [(1, 2); (2, 2)]%nat 70
    = Raise IndexError.
Proof.
  apply (merge_short_grid_raises [[0; 0]; [0; 0; 0]] [1; 1] [(0, 0); (0, 0)]
           [(1, 2); (2, 2)]%nat 70 1 [0; 0; 0] 2 2).
  - reflexivity.
  - reflexivity.
  - simpl. lia.
Defined.

Lemma scan_maps_total_witness :
  exists st,
    scan_maps [[0; 80]; [90]] [1; 1] [(0, 0); (1, 0)] [(1, 2); (1, 1)]%nat 70
      = Ok st /\
    merge_maps [[0; 80]; [90]] [1; 1] [(0, 0); (1, 0)] [(1, 2); (1, 1)]%nat 70
      = rasterize st.
Proof.
  apply (scan_maps_total [[0; 80]; [90]] [1; 1] [(0, 0); (1, 0)]
           [(1, 2); (1, 1)]%nat 70).
  - reflexivity.
  - reflexivity.
  - repeat constructor.
Defined.

Lemma merge_single_known_cell_witness :
  merge_maps [[-1; 5; -1; -1]] [1] [(0, 0)] [(2, 2)%nat] 70 = Raise OverflowError.
Proof.
  apply (merge_single_known_cell [-1; 5; -1; -1] 1 0 0 2 2 70 1 0 5).
  - lia.
  - reflexivity.
  - lia.
  - lia.
  - reflexivity.
  - lia.
  - intros k Hk. destruct k as [|[|[|[|k]]]]; simpl in *;
      try reflexivity; try lia. now destruct k.
Defined.

Lemma threshold_changes_values_only_witness :
  exists img',
    merge_maps [[0; 80; -1; 5]] [2] [(3, 4)] [(2, 2)%nat] 90 = Ok img' /\
    (exists rows cols, shape [[0; 100]; [-1; 0]] rows cols /\ shape img' rows cols) /\
    forall row col,
      cell [[0; 100]; [-1; 0]] row col = -1 <-> cell img' row col = -1.
Proof.
  apply (threshold_changes_values_only [[0; 80; -1; 5]] [2] [(3, 4)]
           [(2, 2)%nat] 70 90 [[0; 100]; [-1; 0]]).
  reflexivity.
Defined.

Lemma corner_source_merge_witness :
  merge_maps [[0; 80; -1; 5]] [2] [(3, 4)] [(2, 2)%nat] 70 =
  Ok (map (map (classify 70)) (chunks 2 2 [0; 80; -1; 5])).
Proof.
  apply (corner_source_merge [0; 80; -1; 5] 2 3 4 2 2 70 0).
  - lia.
  - reflexivity.
  - simpl. lia.
  - reflexivity.
  - lia.
  - exists 0%nat, 80. repeat split; (reflexivity || lia).
  - exists 1%nat, 5. repeat split; (reflexivity || lia).
Defined.
